(** * rapidid: time-ordered identifiers with an optional prefix

    A shallow embedding of package [rapidid] (generation, textual form,
    parsing, byte construction and the SQL scan adapter), together with
    the properties of its specification.

    Go strings and byte slices are sequences of bytes: both are [list byte]
    here.  The wall clock and the entropy source are the two inputs of
    generation that come from outside; they are explicit arguments
    ([elapsed], the [time.Duration] since the epoch in nanoseconds, and
    [rnd], the bytes returned by [getRandomBytes]). *)

From Stdlib Require Import Strings.String Strings.Byte.
From Stdlib Require Import List ZArith NArith Lia Bool Arith Sorted Permutation.
Import ListNotations.

Local Open Scope nat_scope.

(** ** Bytes and byte strings *)

Definition bytes := list byte.

(** A Go string literal, as its bytes. *)
Definition lit (s : string) : bytes := list_byte_of_string s.

(** Go's conversion [byte(x)] of an unsigned integer: the low 8 bits. *)
Definition byte_of_N (n : N) : byte :=
  match Byte.of_N (n mod 256) with
  | Some b => b
  | None => x00
  end.

Definition byte_of_Z (z : Z) : byte := byte_of_N (Z.to_N (z mod 256)).

Definition is_prefix_of (p s : bytes) : bool :=
  (length p <=? length s) && if list_eq_dec Byte.byte_eq_dec p (firstn (length p) s) then true else false.

(** [strings.Index] / [bytes.Index]: position of the first occurrence of
    [sep] in [s]; [None] stands for Go's -1. *)
Fixpoint Index (s sep : bytes) : option nat :=
  if is_prefix_of sep s then Some 0
  else match s with
       | [] => None
       | _ :: s' => option_map S (Index s' sep)
       end.

(** [strings.Contains]. *)
Definition Contains (s sub : bytes) : bool :=
  match Index s sub with Some _ => true | None => false end.

(** [strings.HasSuffix] and [strings.TrimSuffix]. *)
Definition HasSuffix (s suf : bytes) : bool :=
  (length suf <=? length s) && if list_eq_dec Byte.byte_eq_dec suf (skipn (length s - length suf) s) then true else false.

Definition TrimSuffix (s suf : bytes) : bytes :=
  if HasSuffix s suf then firstn (length s - length suf) s else s.

(** The built-in [copy(dst, src)]: overwrites the first
    [min (len dst) (len src)] elements of [dst]. *)
Fixpoint copy (dst src : bytes) : bytes :=
  match dst, src with
  | _ :: dst', y :: src' => y :: copy dst' src'
  | _, _ => dst
  end.

(** [copy(dst[lo:hi], src)] seen from the whole of [dst]. *)
Definition copy_range (dst : bytes) (lo hi : nat) (src : bytes) : bytes :=
  firstn lo dst ++ copy (firstn (hi - lo) (skipn lo dst)) src ++ skipn hi dst.

(** [dst[i] = b] for [i] in range (Go panics out of range; every use below
    is in range, and out of range the list is left as it is). *)
Fixpoint set_at (dst : bytes) (i : nat) (b : byte) : bytes :=
  match dst, i with
  | [], _ => []
  | _ :: dst', O => b :: dst'
  | x :: dst', S i' => x :: set_at dst' i' b
  end.

(** ** Positional numerals

    The imported package [github.com/mr-tron/base58] is not part of the
    repository.  Its [EncodeAlphabet] counts the leading zero bytes of its
    argument, converts the argument, read as one big-endian number, to base
    58 by repeated multiplication and addition in a digit buffer, drops the
    zero digits in front of the result except one for each leading zero
    byte, and writes every digit as its symbol: each leading zero byte
    becomes one first symbol of the alphabet, and the other bytes become the
    digits of their number with no leading zero digit and no padding.
    [DecodeAlphabet] is the converse: it fails on the empty string and on a
    byte that is not a symbol, counts the leading first symbols, converts
    the digits to a big-endian number, and returns one zero byte for each
    leading first symbol followed by the bytes of the number with no leading
    zero byte.  The model below computes these results. *)

(** Digits of [n] in base [b], most significant first, none for 0.  The
    fuel bounds the number of digits; the binary size of [n] is enough for
    any base above 1. *)
Fixpoint to_digits_fuel (fuel : nat) (b n : N) (acc : list N) : list N :=
  match fuel with
  | O => acc
  | S f => if N.eqb n 0 then acc
           else to_digits_fuel f b (n / b)%N ((n mod b)%N :: acc)
  end.

Definition to_digits (b n : N) : list N :=
  to_digits_fuel (N.to_nat (N.size n)) b n [].

(** The number a list of digits denotes, most significant first. *)
Definition of_digits (b : N) (ds : list N) : N :=
  fold_left (fun acc d => (acc * b + d)%N) ds 0%N.

(** Number of leading elements equal to [z]. *)
Fixpoint count_leading {A} (eqb : A -> A -> bool) (z : A) (l : list A) : nat :=
  match l with
  | x :: l' => if eqb x z then S (count_leading eqb z l') else O
  | [] => O
  end.

Module base58.

(** [base58.NewAlphabet s]: the alphabet is its 58 symbols in order. *)
Definition Alphabet := bytes.

Definition encode_digit (a : Alphabet) (d : N) : byte :=
  nth (N.to_nat d) a x00.

Fixpoint find_index (a : Alphabet) (c : byte) : option N :=
  match a with
  | [] => None
  | x :: a' => if Byte.eqb x c then Some 0%N
               else option_map N.succ (find_index a' c)
  end.

(** The decode table: the digit of a symbol, [None] for a byte that is
    not a symbol of the alphabet (the table's -1, or a byte above 127). *)
Definition decode_digit (a : Alphabet) (c : byte) : option N := find_index a c.

Fixpoint decode_digits (a : Alphabet) (s : bytes) : option (list N) :=
  match s with
  | [] => Some []
  | c :: s' =>
      match decode_digit a c, decode_digits a s' with
      | Some d, Some ds => Some (d :: ds)
      | _, _ => None
      end
  end.

Definition EncodeAlphabet (bin : bytes) (a : Alphabet) : bytes :=
  let zcount := count_leading Byte.eqb x00 bin in
  repeat (encode_digit a 0) zcount
    ++ map (encode_digit a) (to_digits 58 (of_digits 256 (map Byte.to_N bin))).

(** [None] stands for the returned error (empty input, or a byte that is
    not a symbol). *)
Definition DecodeAlphabet (str : bytes) (a : Alphabet) : option bytes :=
  match str with
  | [] => None
  | _ =>
      match decode_digits a str with
      | None => None
      | Some ds =>
          let zcount := count_leading Byte.eqb (encode_digit a 0) str in
          Some (repeat x00 zcount ++ map byte_of_N (to_digits 256 (of_digits 58 ds)))
      end
  end.

End base58.

(** ** Constants of the package *)

Definition ID := bytes.

Definition prefixAllowedLen : nat := 3.
Definition timeBytesLen : nat := 7.
Definition randomBytesLen : nat := 12.
Definition byteLength : nat := timeBytesLen + randomBytesLen.
Definition stringEncodedLen : nat := 25.
Definition stringEncodedLenWithPrefix : nat := 3 + 1 + stringEncodedLen.

Definition separator : bytes := lit "-".
Definition separatorBytes : bytes := separator.
Definition alphabets : base58.Alphabet :=
  lit "123456789ABCDEFGHJKLMNPQRSTUVWXYZabcdefghijkmnopqrstuvwxyz".


(** The error values the package returns. *)
Inductive error : Type :=
| errBytesSizeMismatch      (* "invalid identifier bytes; must have at least length 19" *)
| errStringSizeMismatch     (* "invalid identifier string; must have 25 or 29 characters" *)
| errPrefixSeparator        (* "prefix must not contain '-'" *)
| errPrefixWhitespace       (* "prefix must not contain whitespace" *)
| errPrefixLength           (* "prefix must be 3 characters" *)
| errInvalidBase58          (* "invalid ID: must be a valid base58 text" *)
| errUnsupportedScanType.   (* "unable to scan type %T into ID" *)

(** A Go pair [(value, error)]: either the value with a nil error, or the
    error (with a nil value). *)
Inductive result (A : Type) : Type :=
| Ok (a : A)
| Err (e : error).
Arguments Ok {A} a.
Arguments Err {A} e.

(** A call that either returns or panics. *)
Inductive outcome (A : Type) : Type :=
| Returned (a : A)
| Panicked.
Arguments Returned {A} a.
Arguments Panicked {A}.

(** ** The package's functions *)

Definition validatePrefix (str : bytes) (separatorAsInvalid : bool) : option error :=
  let str := if negb separatorAsInvalid then TrimSuffix str separator else str in
  if Contains str separator then Some errPrefixSeparator
  else if Contains str (lit " ") then Some errPrefixWhitespace
  else if (0 <? length str) && negb (length str =? prefixAllowedLen) then Some errPrefixLength
  else None.

(** [uint64(d / 100)] for a [time.Duration] [d]: integer division truncates
    towards zero, the conversion to [uint64] wraps. *)
Definition ticks (elapsed : Z) : Z := ((elapsed ÷ 100) mod 2 ^ 64)%Z.

(** [(ts << 8) & 0xFFFFFFFFFFFFFF00] on [uint64]. *)
Definition shifted (ts : Z) : Z :=
  Z.land (Z.shiftl ts 8 mod 2 ^ 64) 0xFFFFFFFFFFFFFF00%Z.

Definition newID (prefix : bytes) (elapsed : Z) (rnd : bytes) : result ID :=
  match validatePrefix prefix true with
  | Some err => Err err
  | None =>
      let '(prefix, prefixLen) :=
        if 0 <? length prefix
        then (prefix ++ separator, prefixAllowedLen + length separator)
        else (prefix, 0) in
      let ts := ticks elapsed in
      let ts := shifted ts in
      let id := repeat x00 (prefixLen + byteLength) in
      let id := copy_range id 0 prefixLen prefix in
      let id := set_at id (prefixLen + 0) (byte_of_Z (Z.shiftr ts 56)) in
      let id := set_at id (prefixLen + 1) (byte_of_Z (Z.shiftr ts 48)) in
      let id := set_at id (prefixLen + 2) (byte_of_Z (Z.shiftr ts 40)) in
      let id := set_at id (prefixLen + 3) (byte_of_Z (Z.shiftr ts 32)) in
      let id := set_at id (prefixLen + 4) (byte_of_Z (Z.shiftr ts 24)) in
      let id := set_at id (prefixLen + 5) (byte_of_Z (Z.shiftr ts 16)) in
      let id := set_at id (prefixLen + 6) (byte_of_Z (Z.shiftr ts 8)) in
      let id := copy_range id (prefixLen + 7) (length id) rnd in
      Ok id
  end.

Definition New (prefix : bytes) (elapsed : Z) (rnd : bytes) : result ID :=
  newID prefix elapsed rnd.

Definition Bytes (t : ID) : bytes := t.

Definition String (t : ID) : outcome bytes :=
  if byteLength <? length t then
    match Index t separatorBytes with
    | None => Panicked
    | Some separatorIndex =>
        Returned (firstn (separatorIndex + 1) t
                    ++ base58.EncodeAlphabet (skipn (separatorIndex + 1) t) alphabets)
    end
  else Returned (base58.EncodeAlphabet t alphabets).

Definition Value (t : ID) : result bytes := Ok t.

Definition GenerateWithPrefix (prefix : bytes) (elapsed : Z) (rnd : bytes) : outcome bytes :=
  let prefix := TrimSuffix prefix separator in
  match New prefix elapsed rnd with
  | Err _ => Panicked
  | Ok id => String id
  end.

Definition Generate (elapsed : Z) (rnd : bytes) : outcome bytes :=
  GenerateWithPrefix (lit "") elapsed rnd.

Definition FromBytes (b : bytes) : result ID :=
  if length b <? byteLength then Err errBytesSizeMismatch
  else Ok (copy (repeat x00 (length b)) b).

Definition parseInternal (prefix text : bytes) : result ID :=
  if length text <? stringEncodedLen then Err errStringSizeMismatch
  else match validatePrefix prefix false with
       | Some err => Err err
       | None =>
           match base58.DecodeAlphabet text alphabets with
           | None => Err errInvalidBase58
           | Some bs => FromBytes (prefix ++ bs)
           end
       end.

Definition Parse (text : bytes) : result ID :=
  match Index text separator with
  | Some prefixIndex =>
      parseInternal (firstn (prefixIndex + 1) text) (skipn (prefixIndex + 1) text)
  | None =>
      if stringEncodedLen <=? length text then parseInternal (lit "") text
      else Err errStringSizeMismatch
  end.

(** The methods on [*ID] return the new value of the receiver together
    with the error ([None] for nil). *)
Definition UnmarshalText (t : ID) (b : bytes) : ID * option error :=
  match Parse b with
  | Err err => (t, Some err)
  | Ok id => (id, None)
  end.

Definition UnmarshalBinary (t : ID) (b : bytes) : ID * option error :=
  match FromBytes b with
  | Err err => ([], Some err)
  | Ok id => (id, None)
  end.

(** [MarshalText] and [MarshalBinary]: the text, respectively the bytes, of
    the identifier, with a nil error; [MarshalText] panics when [String]
    does. *)
Definition MarshalText (t : ID) : outcome (result bytes) :=
  match String t with
  | Returned s => Returned (Ok s)
  | Panicked => Panicked
  end.

Definition MarshalBinary (t : ID) : result bytes := Ok (Bytes t).

Definition scan (t : ID) (b : bytes) : ID * option error :=
  let n := length b in
  if n =? 0 then (t, None)
  else if (n =? byteLength) || (n =? prefixAllowedLen + byteLength) then UnmarshalBinary t b
  else if (n =? stringEncodedLen) || (n =? prefixAllowedLen + stringEncodedLen) then UnmarshalText t b
  else (t, Some errBytesSizeMismatch).

(** The dynamic types [Scan] switches on; [SrcOther] is any other type. *)
Inductive source : Type :=
| SrcNil
| SrcBytes (v : bytes)
| SrcBuffer (v : bytes)
| SrcBufferPtr (v : bytes)
| SrcString (v : bytes)
| SrcOther.

Definition Scan (t : ID) (src : source) : ID * option error :=
  match src with
  | SrcNil => scan t []
  | SrcBytes v => scan t v
  | SrcBuffer v => scan t v
  | SrcBufferPtr v => scan t v
  | SrcString v => scan t v
  | SrcOther => (t, Some errUnsupportedScanType)
  end.

(** The bytes [Scan] hands to [scan], when the source has a supported type. *)
Definition source_bytes (src : source) : option bytes :=
  match src with
  | SrcNil => Some []
  | SrcBytes v | SrcBuffer v | SrcBufferPtr v | SrcString v => Some v
  | SrcOther => None
  end.

(** ** Slices in memory

    [FromBytes] once more, over backing arrays, to tell a copy from an
    alias.  The heap is the list of the arrays allocated so far; a slice
    names an array, an offset and a length. *)
Module Mem.

Definition heap := list bytes.

Record slice : Type := mkSlice { arr : nat; off : nat; len : nat }.

Definition array (h : heap) (a : nat) : bytes := nth a h [].

Definition valid (h : heap) (s : slice) : Prop :=
  arr s < length h /\ off s + len s <= length (array h (arr s)).

(** The elements of a slice. *)
Definition load (h : heap) (s : slice) : bytes :=
  firstn (len s) (skipn (off s) (array h (arr s))).

Fixpoint set_array (h : heap) (a : nat) (v : bytes) : heap :=
  match h, a with
  | [], _ => []
  | _ :: h', O => v :: h'
  | x :: h', S a' => x :: set_array h' a' v
  end.

(** [make([]byte, n)]: a new zeroed array. *)
Definition make (h : heap) (n : nat) : heap * slice :=
  (h ++ [repeat x00 n], mkSlice (length h) 0 n).

(** [s[i] = b], for [i < len s]. *)
Definition store (h : heap) (s : slice) (i : nat) (b : byte) : heap :=
  if i <? len s
  then set_array h (arr s) (set_at (array h (arr s)) (off s + i) b)
  else h.

(** [copy(dst, src)]. *)
Definition copy_slice (h : heap) (dst src : slice) : heap :=
  set_array h (arr dst)
    (copy_range (array h (arr dst)) (off dst) (off dst + len dst) (load h src)).

Definition FromBytes (h : heap) (b : slice) : heap * result slice :=
  let '(h, id) := make h (len b) in
  if len b <? byteLength then (h, Err errBytesSizeMismatch)
  else (copy_slice h id b, Ok id).

End Mem.

(** ** Order of strings

    Go compares strings byte by byte, a proper prefix being smaller. *)
Fixpoint bytes_compare (a b : bytes) : comparison :=
  match a, b with
  | [], [] => Eq
  | [], _ :: _ => Lt
  | _ :: _, [] => Gt
  | x :: a', y :: b' =>
      match N.compare (Byte.to_N x) (Byte.to_N y) with
      | Eq => bytes_compare a' b'
      | c => c
      end
  end.

Definition bytes_le (a b : bytes) : Prop := bytes_compare a b <> Gt.

(** ** Notions used in the statements *)

(** Digits below the base, the first one not zero. *)
Definition canonical (b : N) (ds : list N) : Prop :=
  Forall (fun d => (d < b)%N) ds /\ (forall d ds', ds = d :: ds' -> d <> 0%N).

(** The symbol of a digit decodes to that digit. *)
Definition digit_ok (d : N) : bool :=
  match base58.decode_digit alphabets (base58.encode_digit alphabets d) with
  | Some d' => N.eqb d d'
  | None => false
  end.

(** 256^(19-k) is at most 58^(26-k): what is left of 19 bytes after [k]
    leading zero bytes fits in [26 - k] base-58 digits. *)
Definition width_ok (k : nat) : bool :=
  (256 ^ N.of_nat (19 - k) <=? 58 ^ N.of_nat (26 - k))%N.

(** The seven timestamp bytes [newID] writes for the shifted tick count
    [ts], and the 19 bytes after the prefix: the timestamp bytes followed by
    the random bytes. *)
Definition stamp (ts : Z) : bytes :=
  [byte_of_Z (Z.shiftr ts 56); byte_of_Z (Z.shiftr ts 48); byte_of_Z (Z.shiftr ts 40);
   byte_of_Z (Z.shiftr ts 32); byte_of_Z (Z.shiftr ts 24); byte_of_Z (Z.shiftr ts 16);
   byte_of_Z (Z.shiftr ts 8)].

Definition payload (elapsed : Z) (rnd : bytes) : bytes :=
  stamp (shifted (ticks elapsed)) ++ copy (repeat x00 randomBytesLen) rnd.

(** The bytes [newID] puts before them: the prefix and the separator, or
    nothing for the empty prefix. *)
Definition prefix_part (prefix : bytes) : bytes :=
  if 0 <? length prefix then prefix ++ separator else [].

(** The text [Parse] takes for the encoded payload: what follows the first
    separator, or the whole text when there is none. *)
Definition payload_text (text : bytes) : bytes :=
  match Index text separator with
  | Some i => skipn (i + 1) text
  | None => text
  end.

(** The number a byte string denotes, most significant byte first. *)
Definition be_value (bs : bytes) : N := of_digits 256 (map Byte.to_N bs).

(** The symbols of two digits compare as the digits do. *)
Definition symbol_order_ok (d1 d2 : N) : bool :=
  match N.compare (Byte.to_N (base58.encode_digit alphabets d1))
          (Byte.to_N (base58.encode_digit alphabets d2)),
        N.compare d1 d2 with
  | Eq, Eq | Lt, Lt | Gt, Gt => true
  | _, _ => false
  end.

(** Clock readings, in nanoseconds since the epoch, whose tick count has a
    first timestamp byte that is not zero and fits the 56-bit field: from
    2^48 ticks (about 326 days) up to 2^56 ticks (about 228 years). *)
Definition steady (elapsed : Z) : Prop :=
  (2 ^ 48 * 100 <= elapsed < 2 ^ 56 * 100)%Z.

(** The tick count at which the payload, as a number, reaches 58^25 and its
    base-58 numeral grows from 25 to 26 digits: 58^25 / 2^96, about
    2026-11-15T12:50Z. *)
Definition width_change : Z := 1537518164588188.

(** Comparison of two numerals digit by digit, in the manner of
    [bytes_compare]. *)
Fixpoint digits_compare (a b : list N) : comparison :=
  match a, b with
  | [], [] => Eq
  | [], _ :: _ => Lt
  | _ :: _, [] => Gt
  | x :: a', y :: b' =>
      match N.compare x y with
      | Eq => digits_compare a' b'
      | c => c
      end
  end.

(** 256^(15-k) is at most 58^(24-k): a numeral of at least [25 - k]
    base-58 digits denotes a number of more than [15 - k] bytes. *)
Definition decode_width_ok (k : nat) : bool :=
  (256 ^ N.of_nat (15 - k) <=? 58 ^ N.of_nat (24 - k))%N.

(** Sample inputs: twelve random bytes, and three clock readings. *)
Definition sample_rnd : bytes := [x01; x02; x03; x04; x05; x06; x07; x08; x09; x0a; x0b; x0c].

(** Nanoseconds from the epoch (2022-01-01T00:00:00Z) to ten minutes past
    it, to 2026-11-01T00:00:00Z (1765 days) and to 2026-12-01T00:00:00Z
    (1795 days). *)
Definition ten_minutes : Z := 600000000000.
Definition nov_2026 : Z := 152496000000000000.
Definition dec_2026 : Z := 155088000000000000.

(** ** The example program

    [exampleTwo] of [example/main.go].  The clock and the entropy source are
    read once in each of the 100 rounds: [env i] is the elapsed time and the
    random bytes of round [i].  The result is the lines printed, and
    whether the run ended normally or in a panic. *)

(** [sort.Strings] (package [sort], not part of the repository) puts the
    strings in increasing order; here by insertion. *)
Fixpoint insert_string (x : bytes) (l : list bytes) : list bytes :=
  match l with
  | [] => [x]
  | y :: l' =>
      match bytes_compare x y with
      | Gt => y :: insert_string x l'
      | _ => x :: l
      end
  end.

Fixpoint sort_strings (l : list bytes) : list bytes :=
  match l with
  | [] => []
  | x :: l' => insert_string x (sort_strings l')
  end.

(** The first loop, from round [i] for [n] rounds. *)
Fixpoint example_collect (env : nat -> Z * bytes) (i n : nat)
    (ids idsToBeSorted : list bytes) : outcome (list bytes * list bytes) :=
  match n with
  | O => Returned (ids, idsToBeSorted)
  | S n' =>
      match GenerateWithPrefix (lit "acc") (fst (env i)) (snd (env i)) with
      | Panicked => Panicked
      | Returned idString =>
          match Parse idString with
          | Err _ => Panicked
          | Ok id =>
              match String id with
              | Panicked => Panicked
              | Returned s1 =>
                  match String id with
                  | Panicked => Panicked
                  | Returned s2 =>
                      example_collect env (S i) n' (ids ++ [s1]) (idsToBeSorted ++ [s2])
                  end
              end
          end
      end
  end.

(** The line [Printf("%s == %s\n", id, sortedID)] prints. *)
Definition example_line (id sortedID : bytes) : bytes :=
  id ++ lit " == " ++ sortedID ++ [x0a].

(** The second loop, over what is left of the sorted strings, at index [i]. *)
Fixpoint example_check (ids rest : list bytes) (i : nat) (out : list bytes)
  : list bytes * outcome unit :=
  match rest with
  | [] => (out, Returned tt)
  | sortedID :: rest' =>
      match nth_error ids i with
      | None => (out, Panicked)
      | Some id =>
          if list_eq_dec Byte.byte_eq_dec id sortedID
          then example_check ids rest' (S i) (out ++ [example_line id sortedID])
          else (out, Panicked)
      end
  end.

Definition exampleTwo (env : nat -> Z * bytes) : list bytes * outcome unit :=
  match example_collect env 0 100 [] [] with
  | Panicked => ([], Panicked)
  | Returned (ids, idsToBeSorted) =>
      example_check ids (sort_strings idsToBeSorted) 0 []
  end.

(** The text generated in a round with the prefix "acc". *)
Definition round_text (er : Z * bytes) : bytes :=
  lit "acc-" ++ base58.EncodeAlphabet (payload (fst er) (snd er)) alphabets.

(** Rounds one second apart from a first clock reading, all with the
    sample random bytes. *)
Definition every_second (start : Z) (i : nat) : Z * bytes :=
  ((start + Z.of_nat i * 1000000000)%Z, sample_rnd).

(** * Properties *)

(** ** Bytes *)

Lemma byte_eqb_refl (x : byte) : Byte.eqb x x = true.
Proof. now apply Byte.byte_dec_lb. Qed.

Lemma byte_eqb_eq (x y : byte) : Byte.eqb x y = true <-> x = y.
Proof. split; [apply Byte.byte_dec_bl | apply Byte.byte_dec_lb]. Qed.

Lemma byte_eqb_neq (x y : byte) : Byte.eqb x y = false <-> x <> y.
Proof.
  split; [apply Byte.eqb_false |].
  intros H. destruct (Byte.eqb x y) eqn:E; [|reflexivity].
  apply byte_eqb_eq in E. contradiction.
Qed.

Lemma to_N_lt (x : byte) : (Byte.to_N x < 256)%N.
Proof. pose proof (Byte.to_N_bounded x). lia. Qed.

Lemma byte_of_to_N (x : byte) : byte_of_N (Byte.to_N x) = x.
Proof.
  unfold byte_of_N. rewrite N.mod_small by apply to_N_lt.
  now rewrite Byte.of_to_N.
Qed.

Lemma to_N_byte_of_N (n : N) : Byte.to_N (byte_of_N n) = (n mod 256)%N.
Proof.
  unfold byte_of_N. destruct (Byte.of_N (n mod 256)) as [b|] eqn:E.
  - now apply Byte.to_of_N.
  - apply Byte.of_N_None_iff in E.
    pose proof (N.mod_upper_bound n 256). lia.
Qed.

Lemma to_N_zero (x : byte) : Byte.to_N x = 0%N <-> x = x00.
Proof.
  split; [|now intros ->].
  intros H. rewrite <- (byte_of_to_N x), H. reflexivity.
Qed.

Lemma map_byte_of_to_N (l : bytes) : map byte_of_N (map Byte.to_N l) = l.
Proof.
  induction l as [|x l IH]; simpl; [reflexivity|].
  now rewrite byte_of_to_N, IH.
Qed.

(** ** [copy], [Index], [TrimSuffix] *)

Lemma copy_length (dst src : bytes) : length (copy dst src) = length dst.
Proof.
  revert src. induction dst as [|x dst IH]; intros [|y src]; simpl; auto.
Qed.

Lemma copy_all (src : bytes) (z : byte) :
  copy (repeat z (length src)) src = src.
Proof. induction src as [|y src IH]; simpl; [reflexivity | now rewrite IH]. Qed.

Lemma is_prefix_of_single (c : byte) (s : bytes) :
  is_prefix_of [c] s = match s with x :: _ => Byte.eqb c x | [] => false end.
Proof.
  unfold is_prefix_of. destruct s as [|x s]; [reflexivity|].
  cbn [length firstn Nat.leb andb].
  destruct (list_eq_dec Byte.byte_eq_dec [c] [x]) as [E|E].
  - injection E as ->. now rewrite byte_eqb_refl.
  - destruct (Byte.eqb c x) eqn:Ec; [|reflexivity].
    apply byte_eqb_eq in Ec. subst. contradiction.
Qed.

Lemma Index_single_cons (c x : byte) (s : bytes) :
  Index (x :: s) [c] = if Byte.eqb c x then Some 0 else option_map S (Index s [c]).
Proof.
  change (Index (x :: s) [c])
    with (if is_prefix_of [c] (x :: s) then Some 0 else option_map S (Index s [c])).
  now rewrite is_prefix_of_single.
Qed.

Lemma Index_single_nil (c : byte) : Index [] [c] = None.
Proof. reflexivity. Qed.

Lemma Index_single_None (c : byte) (s : bytes) :
  Index s [c] = None <-> ~ In c s.
Proof.
  induction s as [|x s IH].
  - simpl. tauto.
  - rewrite Index_single_cons. destruct (Byte.eqb c x) eqn:E.
    + apply byte_eqb_eq in E. subst. split; [discriminate|]. simpl. tauto.
    + apply byte_eqb_neq in E. destruct (Index s [c]) eqn:Ei; simpl.
      * split; [discriminate|]. intros H. exfalso.
        assert (Hn : ~ In c s) by (intros Hin; apply H; now right).
        apply IH in Hn. discriminate.
      * split; [|reflexivity]. intros _ [H|H]; [congruence|].
        now apply (proj1 IH).
Qed.

Lemma Index_single_app (c : byte) (p r : bytes) :
  ~ In c p -> Index (p ++ c :: r) [c] = Some (length p).
Proof.
  induction p as [|x p IH]; intros Hp.
  - simpl app. rewrite Index_single_cons, byte_eqb_refl. reflexivity.
  - simpl app. rewrite Index_single_cons.
    assert (E : Byte.eqb c x = false)
      by (apply byte_eqb_neq; intros ->; apply Hp; now left).
    rewrite E, IH; [reflexivity|]. intros H. apply Hp. now right.
Qed.

Lemma Index_single_Some (c : byte) (s : bytes) (i : nat) :
  Index s [c] = Some i ->
  exists p r, s = p ++ c :: r /\ length p = i /\ ~ In c p.
Proof.
  revert i. induction s as [|x s IH]; intros i H.
  - discriminate.
  - rewrite Index_single_cons in H. destruct (Byte.eqb c x) eqn:E.
    + apply byte_eqb_eq in E. subst x. injection H as <-.
      exists [], s. simpl. tauto.
    + destruct (Index s [c]) as [j|] eqn:Ej; [|discriminate].
      simpl in H. injection H as <-.
      destruct (IH j eq_refl) as (p & r & -> & Hl & Hn).
      exists (x :: p), r. simpl. repeat split; [congruence|].
      apply byte_eqb_neq in E. intros [H|H]; [congruence | contradiction].
Qed.

Lemma Contains_single (c : byte) (s : bytes) :
  Contains s [c] = false <-> ~ In c s.
Proof.
  unfold Contains. rewrite <- Index_single_None.
  destruct (Index s [c]); split; congruence.
Qed.

Lemma firstn_length_app {A} (p r : list A) : firstn (length p) (p ++ r) = p.
Proof.
  induction p as [|x p IH]; simpl; [now destruct r | now rewrite IH].
Qed.

Lemma skipn_length_app {A} (p r : list A) : skipn (length p) (p ++ r) = r.
Proof. induction p as [|x p IH]; simpl; [reflexivity | exact IH]. Qed.

Lemma HasSuffix_app (p suf : bytes) : HasSuffix (p ++ suf) suf = true.
Proof.
  unfold HasSuffix. rewrite length_app.
  replace (length p + length suf - length suf) with (length p) by lia.
  rewrite skipn_length_app.
  destruct (list_eq_dec Byte.byte_eq_dec suf suf) as [_|E]; [|contradiction].
  rewrite andb_true_r. apply Nat.leb_le. lia.
Qed.

Lemma TrimSuffix_app (p suf : bytes) : TrimSuffix (p ++ suf) suf = p.
Proof.
  unfold TrimSuffix. rewrite HasSuffix_app, length_app.
  replace (length p + length suf - length suf) with (length p) by lia.
  apply firstn_length_app.
Qed.

Lemma HasSuffix_single_false (c : byte) (s : bytes) :
  ~ In c s -> HasSuffix s [c] = false.
Proof.
  intros Hn. unfold HasSuffix.
  destruct (list_eq_dec Byte.byte_eq_dec [c] (skipn (length s - length [c]) s)) as [E|E];
    [|apply andb_false_r].
  exfalso. apply Hn.
  rewrite <- (firstn_skipn (length s - length [c]) s), <- E.
  apply in_or_app. right. now left.
Qed.

Lemma TrimSuffix_single_absent (c : byte) (s : bytes) :
  ~ In c s -> TrimSuffix s [c] = s.
Proof. intros H. unfold TrimSuffix. now rewrite HasSuffix_single_false. Qed.

(** ** Positional numerals *)

Lemma of_digits_snoc (b : N) (ds : list N) (d : N) :
  of_digits b (ds ++ [d]) = (of_digits b ds * b + d)%N.
Proof. unfold of_digits. now rewrite fold_left_app. Qed.

Lemma of_digits_app (b : N) (l1 l2 : list N) :
  of_digits b (l1 ++ l2)
  = (of_digits b l1 * b ^ N.of_nat (length l2) + of_digits b l2)%N.
Proof.
  induction l2 as [|d l2 IH] using rev_ind.
  - rewrite app_nil_r. simpl. unfold of_digits at 3. simpl. lia.
  - rewrite app_assoc, !of_digits_snoc, IH, length_app. simpl length.
    replace (N.of_nat (length l2 + 1)) with (N.succ (N.of_nat (length l2))) by lia.
    rewrite N.pow_succ_r'. lia.
Qed.

Lemma of_digits_zeros (b : N) (k : nat) (ds : list N) :
  of_digits b (repeat 0%N k ++ ds) = of_digits b ds.
Proof.
  induction k as [|k IH]; [reflexivity|].
  simpl. unfold of_digits in *. simpl. exact IH.
Qed.

Lemma canonical_nil (b : N) : canonical b [].
Proof. split; [constructor | discriminate]. Qed.

Lemma canonical_snoc_inv (b : N) (ds : list N) (d : N) :
  canonical b (ds ++ [d]) -> canonical b ds /\ (d < b)%N /\ (ds = [] -> d <> 0%N).
Proof.
  intros [Hf Hh]. apply Forall_app in Hf as [Hf1 Hf2]. inversion Hf2; subst.
  repeat split; auto.
  - intros x ds' ->. now apply (Hh x (ds' ++ [d])).
  - intros ->. now apply (Hh d []).
Qed.

Section Numerals.

Variable b : N.
Hypothesis Hb : (2 <= b)%N.

Lemma size_div_lt (n : N) :
  n <> 0%N -> N.to_nat (N.size (n / b)) < N.to_nat (N.size n).
Proof.
  intros Hn. destruct (N.eq_dec (n / b) 0) as [E|E].
  - rewrite E. rewrite (N.size_log2 n Hn). simpl. lia.
  - rewrite (N.size_log2 _ E), (N.size_log2 _ Hn).
    assert (Hle : (n / b <= n / 2)%N) by (apply N.div_le_compat_l; lia).
    apply N.log2_le_mono in Hle.
    assert (H2 : (n / 2 = N.shiftr n 1)%N) by (now rewrite N.shiftr_div_pow2).
    rewrite H2, N.log2_shiftr in Hle.
    assert (0 < N.log2 n)%N.
    { apply N.log2_pos. destruct (N.le_gt_cases n 1) as [H1|H1]; [|exact H1].
      exfalso. apply E. apply N.div_small. lia. }
    lia.
Qed.

Lemma to_digits_fuel_acc (fuel : nat) (n : N) (acc : list N) :
  to_digits_fuel fuel b n acc = to_digits_fuel fuel b n [] ++ acc.
Proof.
  revert n acc. induction fuel as [|f IH]; intros n acc; simpl; [reflexivity|].
  destruct (N.eqb n 0); [reflexivity|].
  rewrite (IH _ (_ :: acc)), (IH _ [_]), <- app_assoc. reflexivity.
Qed.

Lemma to_digits_fuel_enough (f f' : nat) (n : N) (acc : list N) :
  N.to_nat (N.size n) <= f -> N.to_nat (N.size n) <= f' ->
  to_digits_fuel f b n acc = to_digits_fuel f' b n acc.
Proof.
  revert f' n acc. induction f as [|f IH]; intros f' n acc Hf Hf'.
  - assert (n = 0%N) by (destruct n; [reflexivity | simpl in Hf; lia]).
    subst. destruct f'; reflexivity.
  - destruct (N.eqb_spec n 0) as [->|Hn].
    + destruct f'; reflexivity.
    + pose proof (size_div_lt n Hn). destruct f' as [|f']; [lia|].
      simpl. destruct (N.eqb_spec n 0) as [|_]; [contradiction|].
      apply IH; lia.
Qed.

(** The equations of [to_digits]. *)
Lemma to_digits_0 : to_digits b 0 = [].
Proof. reflexivity. Qed.

Lemma to_digits_step (n : N) :
  n <> 0%N -> to_digits b n = to_digits b (n / b) ++ [(n mod b)%N].
Proof.
  intros Hn. unfold to_digits. pose proof (size_div_lt n Hn) as Hs.
  destruct (N.to_nat (N.size n)) as [|f] eqn:Ef; [lia|].
  simpl. destruct (N.eqb_spec n 0) as [|_]; [contradiction|].
  rewrite to_digits_fuel_acc. f_equal.
  apply to_digits_fuel_enough; lia.
Qed.

Lemma div_lt_self (n : N) : n <> 0%N -> (n / b < n)%N.
Proof. intros Hn. apply N.div_lt; lia. Qed.

Lemma of_to_digits (n : N) : of_digits b (to_digits b n) = n.
Proof.
  induction n as [n IH] using (well_founded_induction N.lt_wf_0).
  destruct (N.eq_dec n 0) as [->|Hn]; [reflexivity|].
  rewrite (to_digits_step n Hn), of_digits_snoc, IH by now apply div_lt_self.
  pose proof (N.div_mod n b). lia.
Qed.

Lemma to_digits_canonical (n : N) : canonical b (to_digits b n).
Proof.
  induction n as [n IH] using (well_founded_induction N.lt_wf_0).
  destruct (N.eq_dec n 0) as [->|Hn]; [apply canonical_nil|].
  rewrite (to_digits_step n Hn).
  destruct (IH (n / b)%N (div_lt_self n Hn)) as [Hf Hh]. split.
  - apply Forall_app. split; [exact Hf|]. constructor; [|constructor].
    apply N.mod_upper_bound. lia.
  - intros d ds' E. destruct (to_digits b (n / b)) as [|x l] eqn:El.
    + simpl in E. injection E as <- _.
      assert (Hq : (n / b = 0)%N).
      { rewrite <- (of_to_digits (n / b)), El. reflexivity. }
      apply N.div_small_iff in Hq; [|lia]. rewrite N.mod_small; assumption.
    + simpl in E. injection E as <- _. now apply (Hh x l).
Qed.

Lemma of_digits_lt (ds : list N) :
  Forall (fun d => (d < b)%N) ds -> (of_digits b ds < b ^ N.of_nat (length ds))%N.
Proof.
  induction ds as [|d ds IH] using rev_ind; intros Hf.
  - simpl. unfold of_digits. simpl. lia.
  - apply Forall_app in Hf as [Hf1 Hf2]. inversion Hf2; subst.
    rewrite of_digits_snoc, length_app. simpl length.
    replace (N.of_nat (length ds + 1)) with (N.succ (N.of_nat (length ds))) by lia.
    rewrite N.pow_succ_r'. specialize (IH Hf1). nia.
Qed.

Lemma of_digits_ge (d : N) (ds : list N) :
  d <> 0%N -> (b ^ N.of_nat (length ds) <= of_digits b (d :: ds))%N.
Proof.
  intros Hd. change (d :: ds) with ([d] ++ ds). rewrite of_digits_app.
  unfold of_digits at 1. simpl fold_left.
  assert (0 < b ^ N.of_nat (length ds))%N by (apply N.neq_0_lt_0, N.pow_nonzero; lia).
  nia.
Qed.

Lemma canonical_nonzero (ds : list N) :
  canonical b ds -> ds <> [] -> of_digits b ds <> 0%N.
Proof.
  intros [_ Hh] Hne. destruct ds as [|d ds]; [contradiction|].
  pose proof (of_digits_ge d ds (Hh d ds eq_refl)).
  assert (0 < b ^ N.of_nat (length ds))%N by (apply N.neq_0_lt_0, N.pow_nonzero; lia).
  lia.
Qed.

(** A canonical numeral is the numeral of its value. *)
Lemma to_of_digits (ds : list N) :
  canonical b ds -> to_digits b (of_digits b ds) = ds.
Proof.
  induction ds as [|d ds IH] using rev_ind; intros Hc; [reflexivity|].
  destruct (canonical_snoc_inv b ds d Hc) as (Hc' & Hd & H0).
  rewrite of_digits_snoc.
  assert (Hn : (of_digits b ds * b + d)%N <> 0%N).
  { destruct ds as [|x l]; [specialize (H0 eq_refl); unfold of_digits; simpl; lia|].
    pose proof (canonical_nonzero (x :: l) Hc'). 
    assert (of_digits b (x :: l) <> 0%N) by (apply H; discriminate). nia. }
  rewrite (to_digits_step _ Hn).
  replace ((of_digits b ds * b + d) / b)%N with (of_digits b ds).
  2:{ rewrite N.div_add_l by lia. rewrite (N.div_small d b) by exact Hd. lia. }
  replace ((of_digits b ds * b + d) mod b)%N with d.
  2:{ rewrite N.add_comm, N.Div0.mod_add. now rewrite N.mod_small. }
  now rewrite IH.
Qed.

Lemma to_digits_length_le (n : N) (k : nat) :
  (n < b ^ N.of_nat k)%N -> length (to_digits b n) <= k.
Proof.
  intros Hlt. destruct (to_digits_canonical n) as [_ Hh].
  pose proof (of_to_digits n) as Hv.
  destruct (to_digits b n) as [|d ds] eqn:E; [simpl; lia|].
  pose proof (of_digits_ge d ds (Hh d ds eq_refl)) as Hge. rewrite Hv in Hge.
  simpl length. destruct (Nat.le_gt_cases (S (length ds)) k) as [H|H]; [exact H|].
  exfalso.
  assert (b ^ N.of_nat k <= b ^ N.of_nat (length ds))%N
    by (apply N.pow_le_mono_r; lia).
  lia.
Qed.

Lemma to_digits_length_gt (n : N) (k : nat) :
  (b ^ N.of_nat k <= n)%N -> k < length (to_digits b n).
Proof.
  intros Hle. destruct (to_digits_canonical n) as [Hf _].
  pose proof (of_digits_lt _ Hf) as Hlt. rewrite of_to_digits in Hlt.
  destruct (Nat.le_gt_cases (length (to_digits b n)) k) as [H|H]; [|exact H].
  exfalso.
  assert (b ^ N.of_nat (length (to_digits b n)) <= b ^ N.of_nat k)%N
    by (apply N.pow_le_mono_r; lia).
  lia.
Qed.

End Numerals.

(** ** The base-58 codec over the package's alphabet *)

Lemma count_leading_split (z : byte) (l : bytes) :
  exists rest,
    l = repeat z (count_leading Byte.eqb z l) ++ rest
    /\ (forall x r, rest = x :: r -> x <> z).
Proof.
  induction l as [|x l (rest & E & Hr)].
  - exists []. split; [reflexivity | discriminate].
  - simpl. destruct (Byte.eqb x z) eqn:Ex.
    + apply byte_eqb_eq in Ex. subst x. exists rest. simpl.
      split; [now rewrite <- E | exact Hr].
    + apply byte_eqb_neq in Ex. exists (x :: l). simpl.
      split; [reflexivity|]. now intros y r [= <- _].
Qed.

Lemma count_leading_repeat_app (z : byte) (k : nat) (rest : bytes) :
  (forall x r, rest = x :: r -> x <> z) ->
  count_leading Byte.eqb z (repeat z k ++ rest) = k.
Proof.
  intros Hr. induction k as [|k IH]; simpl.
  - destruct rest as [|x r]; [reflexivity|]. simpl.
    assert (E : Byte.eqb x z = false) by (apply byte_eqb_neq; now apply (Hr x r)).
    now rewrite E.
  - now rewrite byte_eqb_refl, IH.
Qed.

Lemma find_index_Some (a : base58.Alphabet) (c : byte) (d : N) :
  base58.find_index a c = Some d ->
  N.to_nat d < length a /\ nth (N.to_nat d) a x00 = c.
Proof.
  revert d. induction a as [|x a IH]; intros d H; [discriminate|].
  simpl in H. destruct (Byte.eqb x c) eqn:E.
  - injection H as <-. apply byte_eqb_eq in E. simpl. split; [lia | exact E].
  - destruct (base58.find_index a c) as [d'|]; [|discriminate].
    simpl in H. injection H as <-. destruct (IH d' eq_refl) as [Hl Hn].
    rewrite N2Nat.inj_succ. simpl. split; [lia | exact Hn].
Qed.

Lemma find_index_None (a : base58.Alphabet) (c : byte) :
  base58.find_index a c = None <-> ~ In c a.
Proof.
  induction a as [|x a IH]; simpl; [tauto|].
  destruct (Byte.eqb x c) eqn:E.
  - apply byte_eqb_eq in E. split; [discriminate | tauto].
  - apply byte_eqb_neq in E. destruct (base58.find_index a c); simpl.
    + split; [discriminate|]. intros H. exfalso. apply H. right.
      destruct (in_dec Byte.byte_eq_dec c a) as [Hi|Hi]; [exact Hi|].
      apply IH in Hi. discriminate.
    + split; [|reflexivity]. intros _ [H|H]; [contradiction|]. now apply IH.
Qed.

Lemma alphabets_length : length alphabets = 58.
Proof. reflexivity. Qed.

Lemma digits_ok : forallb digit_ok (map N.of_nat (seq 0 58)) = true.
Proof. vm_compute. reflexivity. Qed.

Lemma decode_encode_digit (d : N) :
  (d < 58)%N ->
  base58.decode_digit alphabets (base58.encode_digit alphabets d) = Some d.
Proof.
  intros Hd. pose proof digits_ok as H. rewrite forallb_forall in H.
  specialize (H d). unfold digit_ok in H.
  destruct (base58.decode_digit alphabets (base58.encode_digit alphabets d)) as [d'|].
  - f_equal. symmetry. apply N.eqb_eq. apply H.
    replace d with (N.of_nat (N.to_nat d)) by lia.
    apply in_map, in_seq. lia.
  - assert (false = true); [|discriminate]. apply H.
    replace d with (N.of_nat (N.to_nat d)) by lia.
    apply in_map, in_seq. lia.
Qed.

Lemma encode_digit_inj (d d' : N) :
  (d < 58)%N -> (d' < 58)%N ->
  base58.encode_digit alphabets d = base58.encode_digit alphabets d' -> d = d'.
Proof.
  intros Hd Hd' E. pose proof (decode_encode_digit d Hd) as H.
  rewrite E, (decode_encode_digit d' Hd') in H. congruence.
Qed.

Lemma encode_digit_in (d : N) :
  (d < 58)%N -> In (base58.encode_digit alphabets d) alphabets.
Proof.
  intros Hd. unfold base58.encode_digit. apply nth_In.
  rewrite alphabets_length. lia.
Qed.

Lemma decode_digit_lt (c : byte) (d : N) :
  base58.decode_digit alphabets c = Some d ->
  (d < 58)%N /\ base58.encode_digit alphabets d = c.
Proof.
  intros H. apply find_index_Some in H as [Hl Hn].
  rewrite alphabets_length in Hl. split; [lia | exact Hn].
Qed.

Lemma decode_digits_map_encode (ds : list N) :
  Forall (fun d => (d < 58)%N) ds ->
  base58.decode_digits alphabets (map (base58.encode_digit alphabets) ds) = Some ds.
Proof.
  induction 1 as [|d ds Hd _ IH]; [reflexivity|].
  cbn [map base58.decode_digits]. now rewrite (decode_encode_digit d Hd), IH.
Qed.

Lemma decode_digits_app (s1 s2 : bytes) (d1 d2 : list N) :
  base58.decode_digits alphabets s1 = Some d1 ->
  base58.decode_digits alphabets s2 = Some d2 ->
  base58.decode_digits alphabets (s1 ++ s2) = Some (d1 ++ d2).
Proof.
  revert d1. induction s1 as [|c s1 IH]; intros d1 H1 H2.
  - injection H1 as <-. exact H2.
  - cbn [app base58.decode_digits] in *.
    destruct (base58.decode_digit alphabets c) as [d|]; [|discriminate].
    destruct (base58.decode_digits alphabets s1) as [ds|]; [|discriminate].
    injection H1 as <-. now rewrite (IH ds eq_refl H2).
Qed.

Lemma decode_digits_repeat_first (k : nat) :
  base58.decode_digits alphabets (repeat (base58.encode_digit alphabets 0) k)
  = Some (repeat 0%N k).
Proof.
  induction k as [|k IH]; [reflexivity|].
  cbn [repeat base58.decode_digits].
  rewrite (decode_encode_digit 0) by lia. now rewrite IH.
Qed.

Lemma decode_digits_None (s : bytes) :
  (exists c, In c s /\ ~ In c alphabets) ->
  base58.decode_digits alphabets s = None.
Proof.
  intros (c & Hi & Hn). induction s as [|x s IH]; [contradiction|].
  cbn [base58.decode_digits]. destruct Hi as [->|Hi].
  - apply find_index_None in Hn. unfold base58.decode_digit. now rewrite Hn.
  - rewrite (IH Hi). now destruct (base58.decode_digit alphabets x).
Qed.

(** The value of a byte string ignores its leading zero bytes, and the
    bytes after them are a canonical numeral in base 256. *)
Lemma canonical_bytes (rest : bytes) :
  (forall x r, rest = x :: r -> x <> x00) ->
  canonical 256 (map Byte.to_N rest).
Proof.
  intros Hr. split.
  - apply Forall_forall. intros d Hd. apply in_map_iff in Hd as (x & <- & _).
    apply to_N_lt.
  - intros d ds' E. destruct rest as [|x r]; [discriminate|].
    simpl in E. injection E as <- _. intros H0. apply to_N_zero in H0.
    now apply (Hr x r).
Qed.

Lemma map_to_N_zeros (k : nat) (rest : bytes) :
  map Byte.to_N (repeat x00 k ++ rest) = repeat 0%N k ++ map Byte.to_N rest.
Proof. rewrite map_app. f_equal. induction k; simpl; congruence. Qed.

Lemma EncodeAlphabet_zeros (k : nat) (rest : bytes) :
  (forall x r, rest = x :: r -> x <> x00) ->
  base58.EncodeAlphabet (repeat x00 k ++ rest) alphabets
  = repeat (base58.encode_digit alphabets 0) k
      ++ map (base58.encode_digit alphabets)
           (to_digits 58 (of_digits 256 (map Byte.to_N rest))).
Proof.
  intros Hr. unfold base58.EncodeAlphabet.
  rewrite (count_leading_repeat_app x00 k rest Hr), map_to_N_zeros, of_digits_zeros.
  reflexivity.
Qed.

Lemma encoded_digits_head (n : N) :
  forall x r, map (base58.encode_digit alphabets) (to_digits 58 n) = x :: r ->
              x <> base58.encode_digit alphabets 0.
Proof.
  intros x r E. destruct (to_digits_canonical 58 ltac:(lia) n) as [Hf Hh].
  destruct (to_digits 58 n) as [|d ds]; [discriminate|].
  simpl in E. injection E as <- _. intros Habs.
  inversion Hf; subst.
  apply encode_digit_inj in Habs; [|assumption|lia].
  now apply (Hh d ds).
Qed.

(** Decoding undoes encoding. *)
Lemma Decode_Encode (bin : bytes) :
  bin <> [] ->
  base58.DecodeAlphabet (base58.EncodeAlphabet bin alphabets) alphabets = Some bin.
Proof.
  intros Hne. destruct (count_leading_split x00 bin) as (rest & E & Hr).
  set (k := count_leading Byte.eqb x00 bin) in *.
  rewrite E at 1. rewrite (EncodeAlphabet_zeros k rest Hr).
  set (v := of_digits 256 (map Byte.to_N rest)).
  pose proof (to_digits_canonical 58 ltac:(lia) v) as [Hf Hh].
  unfold base58.DecodeAlphabet.
  destruct (repeat (base58.encode_digit alphabets 0) k
              ++ map (base58.encode_digit alphabets) (to_digits 58 v)) as [|c s] eqn:Es.
  - exfalso. apply app_eq_nil in Es as [Ek Ed].
    destruct k; [|discriminate]. apply map_eq_nil in Ed.
    assert (Hv : v = 0%N) by (rewrite <- (of_to_digits 58 ltac:(lia) v), Ed; reflexivity).
    destruct rest as [|x r]; [simpl in E; contradiction|].
    apply (canonical_nonzero 256 ltac:(lia) (map Byte.to_N (x :: r))).
    + now apply canonical_bytes.
    + discriminate.
    + exact Hv.
  - rewrite <- Es.
    rewrite (decode_digits_app _ _ _ _ (decode_digits_repeat_first k)
               (decode_digits_map_encode _ Hf)).
    rewrite (count_leading_repeat_app _ k _ (encoded_digits_head v)).
    rewrite of_digits_zeros, (of_to_digits 58) by lia.
    unfold v. rewrite (to_of_digits 256) by (lia || now apply canonical_bytes).
    rewrite map_byte_of_to_N. now rewrite <- E.
Qed.

Lemma Encode_in_alphabet (bin : bytes) (c : byte) :
  In c (base58.EncodeAlphabet bin alphabets) -> In c alphabets.
Proof.
  unfold base58.EncodeAlphabet. intros H. apply in_app_or in H as [H|H].
  - apply repeat_spec in H. subst. apply encode_digit_in. lia.
  - apply in_map_iff in H as (d & <- & Hd). apply encode_digit_in.
    destruct (to_digits_canonical 58 ltac:(lia) (of_digits 256 (map Byte.to_N bin))) as [Hf _].
    rewrite Forall_forall in Hf. now apply Hf.
Qed.

Lemma separator_not_in_alphabet : ~ In "-"%byte alphabets.
Proof.
  apply find_index_None. vm_compute. reflexivity.
Qed.

Lemma Encode_no_separator (bin : bytes) :
  ~ In "-"%byte (base58.EncodeAlphabet bin alphabets).
Proof. intros H. apply Encode_in_alphabet in H. exact (separator_not_in_alphabet H). Qed.

Lemma Encode_length (k : nat) (rest : bytes) :
  (forall x r, rest = x :: r -> x <> x00) ->
  length (base58.EncodeAlphabet (repeat x00 k ++ rest) alphabets)
  = k + length (to_digits 58 (of_digits 256 (map Byte.to_N rest))).
Proof.
  intros Hr. rewrite (EncodeAlphabet_zeros k rest Hr).
  now rewrite length_app, repeat_length, length_map.
Qed.

(** An encoding is never shorter than the bytes it encodes. *)
Lemma Encode_length_ge (bin : bytes) :
  length bin <= length (base58.EncodeAlphabet bin alphabets).
Proof.
  destruct (count_leading_split x00 bin) as (rest & E & Hr).
  set (k := count_leading Byte.eqb x00 bin) in *.
  rewrite E at 2. rewrite (Encode_length k rest Hr).
  rewrite E at 1. rewrite length_app, repeat_length.
  apply Nat.add_le_mono_l.
  destruct rest as [|x r]; [simpl; lia|].
  assert (Hx : Byte.to_N x <> 0%N)
    by (intros H0; apply to_N_zero in H0; now apply (Hr x r)).
  pose proof (of_digits_ge 256 ltac:(lia) (Byte.to_N x) (map Byte.to_N r) Hx) as Hge.
  rewrite length_map in Hge. cbn [map length].
  apply (to_digits_length_gt 58 ltac:(lia)).
  assert (58 ^ N.of_nat (length r) <= 256 ^ N.of_nat (length r))%N
    by (apply N.pow_le_mono_l; lia).
  cbn [map] in Hge. lia.
Qed.

Lemma widths_ok : forallb width_ok (seq 0 20) = true.
Proof. vm_compute. reflexivity. Qed.

(** The encoding of 19 bytes has at most 26 symbols. *)
Lemma Encode_length_le (bin : bytes) :
  length bin = 19 -> length (base58.EncodeAlphabet bin alphabets) <= 26.
Proof.
  intros Hl. destruct (count_leading_split x00 bin) as (rest & E & Hr).
  set (k := count_leading Byte.eqb x00 bin) in *.
  rewrite E. rewrite (Encode_length k rest Hr).
  assert (Hk : k + length rest = 19)
    by (rewrite E in Hl; now rewrite length_app, repeat_length in Hl).
  assert (Hv : (of_digits 256 (map Byte.to_N rest) < 256 ^ N.of_nat (length rest))%N).
  { rewrite <- (length_map Byte.to_N). apply of_digits_lt; [lia|].
    apply (canonical_bytes rest Hr). }
  pose proof widths_ok as Hw. rewrite forallb_forall in Hw.
  specialize (Hw k). unfold width_ok in Hw.
  assert (Hin : In k (seq 0 20)) by (apply in_seq; lia).
  apply Hw, N.leb_le in Hin.
  replace (19 - k) with (length rest) in Hin by lia.
  assert (length (to_digits 58 (of_digits 256 (map Byte.to_N rest))) <= 26 - k).
  { apply (to_digits_length_le 58 ltac:(lia)). lia. }
  lia.
Qed.

(** ** Prefix validation *)

Lemma validatePrefix_strict_None (p : bytes) :
  validatePrefix p true = None <->
  ~ In "-"%byte p /\ ~ In " "%byte p /\ (length p = 0 \/ length p = 3).
Proof.
  unfold validatePrefix. cbn [negb].
  change separator with ["-"%byte]. change (lit " ") with [" "%byte].
  rewrite <- !Contains_single.
  destruct (Contains p ["-"%byte]); [split; [discriminate | intros [? _]; discriminate]|].
  destruct (Contains p [" "%byte]); [split; [discriminate | intros (_ & ? & _); discriminate]|].
  unfold prefixAllowedLen.
  destruct (Nat.ltb_spec 0 (length p)) as [H0|H0];
    destruct (Nat.eqb_spec (length p) 3) as [H3|H3]; cbn [andb negb];
    split; intros H; try discriminate; try (repeat split; try reflexivity; lia);
    destruct H as (_ & _ & [H|H]); lia.
Qed.

Lemma validatePrefix_trailing (p : bytes) :
  validatePrefix (p ++ separator) false = validatePrefix p true.
Proof. unfold validatePrefix. cbn [negb]. now rewrite TrimSuffix_app. Qed.

Lemma validatePrefix_empty : validatePrefix (lit "") false = None.
Proof. reflexivity. Qed.

Lemma validatePrefix_not_size (p : bytes) (m : bool) :
  validatePrefix p m <> Some errStringSizeMismatch
  /\ validatePrefix p m <> Some errBytesSizeMismatch.
Proof.
  unfold validatePrefix.
  destruct (Contains _ separator); [split; discriminate|].
  destruct (Contains _ (lit " ")); [split; discriminate|].
  destruct (_ && _); split; discriminate.
Qed.

(** ** Generation *)

Lemma payload_length (elapsed : Z) (rnd : bytes) : length (payload elapsed rnd) = 19.
Proof.
  unfold payload. rewrite length_app, copy_length, repeat_length. reflexivity.
Qed.

Lemma newID_shape (p : bytes) (elapsed : Z) (rnd : bytes) :
  validatePrefix p true = None ->
  newID p elapsed rnd = Ok (prefix_part p ++ payload elapsed rnd).
Proof.
  intros Hv. unfold newID. rewrite Hv.
  apply validatePrefix_strict_None in Hv as (_ & _ & Hl).
  unfold payload, stamp, prefix_part.
  generalize (shifted (ticks elapsed)) as ts. intros ts.
  generalize (byte_of_Z (Z.shiftr ts 56)) (byte_of_Z (Z.shiftr ts 48))
    (byte_of_Z (Z.shiftr ts 40)) (byte_of_Z (Z.shiftr ts 32))
    (byte_of_Z (Z.shiftr ts 24)) (byte_of_Z (Z.shiftr ts 16))
    (byte_of_Z (Z.shiftr ts 8)).
  intros b0 b1 b2 b3 b4 b5 b6.
  destruct p as [|x [|y [|z [|w p]]]]; simpl in Hl; try lia.
  - cbn. now rewrite app_nil_r.
  - cbn. now rewrite app_nil_r.
Qed.

Lemma newID_error (p : bytes) (elapsed : Z) (rnd : bytes) (e : error) :
  validatePrefix p true = Some e -> newID p elapsed rnd = Err e.
Proof. intros Hv. unfold newID. now rewrite Hv. Qed.

Lemma prefix_part_cases (p : bytes) :
  validatePrefix p true = None ->
  (p = [] /\ prefix_part p = [])
  \/ (length p = 3 /\ ~ In "-"%byte p /\ prefix_part p = p ++ separator).
Proof.
  intros Hv. apply validatePrefix_strict_None in Hv as (Hs & _ & [Hl|Hl]).
  - left. destruct p; [split; reflexivity | discriminate].
  - right. unfold prefix_part. rewrite Hl. auto.
Qed.

(** ** Text and parsing *)

Lemma FromBytes_ok (b : bytes) : 19 <= length b -> FromBytes b = Ok b.
Proof.
  intros H. unfold FromBytes, byteLength, timeBytesLen, randomBytesLen. cbn [Nat.add].
  destruct (Nat.ltb_spec (length b) 19); [lia|]. now rewrite copy_all.
Qed.

Lemma FromBytes_err (b : bytes) :
  length b < 19 -> FromBytes b = Err errBytesSizeMismatch.
Proof.
  intros H. unfold FromBytes, byteLength, timeBytesLen, randomBytesLen. cbn [Nat.add].
  destruct (Nat.ltb_spec (length b) 19); [reflexivity | lia].
Qed.

Lemma String_short (t : ID) :
  length t <= 19 -> String t = Returned (base58.EncodeAlphabet t alphabets).
Proof.
  intros H. unfold String, byteLength, timeBytesLen, randomBytesLen. cbn [Nat.add].
  destruct (Nat.ltb_spec 19 (length t)); [lia | reflexivity].
Qed.

Lemma firstn_succ_app (p r : bytes) (c : byte) :
  firstn (length p + 1) (p ++ c :: r) = p ++ [c].
Proof.
  change (p ++ c :: r) with (p ++ [c] ++ r). rewrite app_assoc.
  replace (length p + 1) with (length (p ++ [c])) by (rewrite length_app; reflexivity).
  apply firstn_length_app.
Qed.

Lemma skipn_succ_app (p r : bytes) (c : byte) :
  skipn (length p + 1) (p ++ c :: r) = r.
Proof.
  change (p ++ c :: r) with (p ++ [c] ++ r). rewrite app_assoc.
  replace (length p + 1) with (length (p ++ [c])) by (rewrite length_app; reflexivity).
  apply skipn_length_app.
Qed.

Lemma String_long (p v : bytes) :
  ~ In "-"%byte p -> 19 < length (p ++ separator ++ v) ->
  String (p ++ separator ++ v)
  = Returned (p ++ separator ++ base58.EncodeAlphabet v alphabets).
Proof.
  intros Hp Hl. unfold String, byteLength, timeBytesLen, randomBytesLen. cbn [Nat.add].
  destruct (Nat.ltb_spec 19 (length (p ++ separator ++ v))); [|lia].
  unfold separatorBytes. change separator with ["-"%byte]. cbn [app].
  rewrite (Index_single_app _ p v Hp), firstn_succ_app, skipn_succ_app.
  now rewrite <- app_assoc.
Qed.

Lemma Parse_separated (p text : bytes) :
  ~ In "-"%byte p ->
  Parse (p ++ separator ++ text) = parseInternal (p ++ separator) text.
Proof.
  intros Hp. unfold Parse. change separator with ["-"%byte]. cbn [app].
  now rewrite (Index_single_app _ p text Hp), firstn_succ_app, skipn_succ_app.
Qed.

Lemma Parse_unseparated (text : bytes) :
  ~ In "-"%byte text ->
  Parse text = if stringEncodedLen <=? length text then parseInternal (lit "") text
               else Err errStringSizeMismatch.
Proof.
  intros Hp. unfold Parse. change separator with ["-"%byte].
  apply Index_single_None in Hp. now rewrite Hp.
Qed.

Lemma parseInternal_encoded (p v : bytes) :
  validatePrefix p false = None -> v <> [] -> 19 <= length (p ++ v) ->
  25 <= length (base58.EncodeAlphabet v alphabets) ->
  parseInternal p (base58.EncodeAlphabet v alphabets) = Ok (p ++ v).
Proof.
  intros Hv Hne Hl He. unfold parseInternal, stringEncodedLen.
  destruct (Nat.ltb_spec (length (base58.EncodeAlphabet v alphabets)) 25); [lia|].
  rewrite Hv, (Decode_Encode v Hne). now apply FromBytes_ok.
Qed.

Lemma String_payload (p v : bytes) :
  validatePrefix p true = None -> length v = 19 ->
  String (prefix_part p ++ v)
  = Returned (prefix_part p ++ base58.EncodeAlphabet v alphabets).
Proof.
  intros Hv Hl. destruct (prefix_part_cases p Hv) as [[-> ->] | (Hp & Hs & ->)].
  - cbn [app]. apply String_short. lia.
  - rewrite <- !app_assoc. apply String_long; [exact Hs|].
    rewrite !length_app, Hl. simpl. lia.
Qed.

Lemma Encode_payload_length (v : bytes) :
  length v = 19 -> 19 <= length (base58.EncodeAlphabet v alphabets) <= 26.
Proof.
  intros Hl. split; [rewrite <- Hl; apply Encode_length_ge | now apply Encode_length_le].
Qed.

(** Parsing the text of a generated identifier gives the identifier back,
    provided the encoded payload has the 25 symbols [Parse] asks for. *)
Lemma Parse_String_generated (p : bytes) (elapsed : Z) (rnd : bytes) (id : ID) :
  newID p elapsed rnd = Ok id ->
  25 <= length (base58.EncodeAlphabet (payload elapsed rnd) alphabets) ->
  exists s, String id = Returned s /\ Parse s = Ok id.
Proof.
  intros Hn He. destruct (validatePrefix p true) as [e|] eqn:Hv.
  { rewrite (newID_error _ _ _ _ Hv) in Hn. discriminate. }
  rewrite (newID_shape _ _ _ Hv) in Hn. injection Hn as <-.
  pose proof (payload_length elapsed rnd) as Hpl.
  assert (Hne : payload elapsed rnd <> []) by (intros E; rewrite E in Hpl; discriminate).
  destruct (prefix_part_cases p Hv) as [[-> ->] | (Hl & Hs & ->)].
  - cbn [app]. rewrite String_short by lia. eexists. split; [reflexivity|].
    rewrite Parse_unseparated by apply Encode_no_separator.
    unfold stringEncodedLen.
    destruct (Nat.leb_spec 25 (length (base58.EncodeAlphabet (payload elapsed rnd) alphabets)));
      [|lia].
    apply (parseInternal_encoded [] _ validatePrefix_empty Hne); [cbn [app]; lia | exact He].
  - rewrite <- app_assoc.
    rewrite String_long; [|exact Hs|rewrite !length_app, Hpl; simpl; lia].
    eexists. split; [reflexivity|].
    rewrite (Parse_separated p _ Hs).
    rewrite (parseInternal_encoded (p ++ separator) (payload elapsed rnd)); auto.
    + now rewrite app_assoc.
    + now rewrite validatePrefix_trailing.
    + rewrite !length_app, Hpl. lia.
Qed.

(** ** The timestamp field *)

Lemma shifted_eq (ts : Z) : shifted ts = (ts mod 2 ^ 56 * 256)%Z.
Proof.
  unfold shifted. rewrite Z.shiftl_mul_pow2 by lia.
  change (2 ^ 64)%Z with (2 ^ 56 * 2 ^ 8)%Z.
  rewrite Z.mul_mod_distr_r by lia. change (2 ^ 8)%Z with 256%Z.
  set (x := (ts mod 2 ^ 56)%Z).
  assert (Hx : (0 <= x < 2 ^ 56)%Z) by (apply Z.mod_pos_bound; lia).
  change 0xFFFFFFFFFFFFFF00%Z with (Z.shiftl (Z.ones 56) 8).
  replace (x * 256)%Z with (Z.shiftl x 8) by (rewrite Z.shiftl_mul_pow2; lia).
  rewrite <- Z.shiftl_land, Z.land_ones by lia.
  now rewrite Z.mod_small by lia.
Qed.

Lemma shifted_range (ts : Z) : (0 <= shifted ts < 2 ^ 64)%Z.
Proof.
  rewrite shifted_eq. pose proof (Z.mod_pos_bound ts (2 ^ 56) ltac:(lia)). lia.
Qed.


Lemma to_N_byte_of_Z (z : Z) : Z.of_N (Byte.to_N (byte_of_Z z)) = (z mod 256)%Z.
Proof.
  unfold byte_of_Z. rewrite to_N_byte_of_N.
  pose proof (Z.mod_pos_bound z 256 ltac:(lia)).
  rewrite N.mod_small by lia. lia.
Qed.

Lemma stamp_value (sh : Z) :
  (0 <= sh < 2 ^ 64)%Z ->
  Z.of_N (of_digits 256 (map Byte.to_N (stamp sh))) = Z.shiftr sh 8.
Proof.
  intros Hs. unfold stamp, of_digits. cbn [map fold_left].
  repeat (rewrite N2Z.inj_add || rewrite N2Z.inj_mul).
  rewrite !to_N_byte_of_Z, !Z.shiftr_div_pow2 by lia.
  change (Z.of_N 256) with 256%Z. change (Z.of_N 0) with 0%Z.
  set (x := (sh / 2 ^ 8)%Z).
  assert (H16 : (sh / 2 ^ 16 = x / 256)%Z) by (unfold x; now rewrite Z.div_div by lia).
  assert (H24 : (sh / 2 ^ 24 = x / 256 / 256)%Z)
    by (unfold x; now rewrite !Z.div_div by lia).
  assert (H32 : (sh / 2 ^ 32 = x / 256 / 256 / 256)%Z)
    by (unfold x; now rewrite !Z.div_div by lia).
  assert (H40 : (sh / 2 ^ 40 = x / 256 / 256 / 256 / 256)%Z)
    by (unfold x; now rewrite !Z.div_div by lia).
  assert (H48 : (sh / 2 ^ 48 = x / 256 / 256 / 256 / 256 / 256)%Z)
    by (unfold x; now rewrite !Z.div_div by lia).
  assert (H56 : (sh / 2 ^ 56 = x / 256 / 256 / 256 / 256 / 256 / 256)%Z)
    by (unfold x; now rewrite !Z.div_div by lia).
  rewrite H16, H24, H32, H40, H48, H56.
  assert (Hx : (0 <= x < 2 ^ 56)%Z).
  { unfold x. split; [apply Z.div_pos; lia|]. apply Z.div_lt_upper_bound; lia. }
  change (2 ^ 56)%Z with 72057594037927936%Z in Hx.
  clearbody x. clear - Hx.
  Z.div_mod_to_equations. lia.
Qed.



(** ** Order of the texts *)

(** C2: two identifiers generated with the prefix "acc" and the same random
    bytes, the first on 2026-11-01 and the second on 2026-12-01, both within
    the 56 bits of the timestamp field: the text of the later one is the
    smaller string. *)
Theorem sortedness_broken :
  (nov_2026 < dec_2026)%Z
  /\ (ticks nov_2026 < ticks dec_2026 < 2 ^ 56)%Z
  /\ GenerateWithPrefix (lit "acc") nov_2026 sample_rnd
     = Returned (lit "acc-zXXMx4eht1PaLRp7vSA4iBXYF")
  /\ GenerateWithPrefix (lit "acc") dec_2026 sample_rnd
     = Returned (lit "acc-21WEdFvVpKrBCuRWxseMsafU3D")
  /\ bytes_compare (lit "acc-zXXMx4eht1PaLRp7vSA4iBXYF")
       (lit "acc-21WEdFvVpKrBCuRWxseMsafU3D") = Gt
  /\ ~ bytes_le (lit "acc-zXXMx4eht1PaLRp7vSA4iBXYF")
         (lit "acc-21WEdFvVpKrBCuRWxseMsafU3D").
Proof.
  split; [reflexivity|]. split; [split; reflexivity|].
  split; [vm_compute; reflexivity|]. split; [vm_compute; reflexivity|].
  split; [vm_compute; reflexivity|].
  intros H. apply H. vm_compute. reflexivity.
Qed.

(** ** Round trip through the text *)

(** C3: the identifier generated with the prefix "acc" ten minutes after
    the epoch is written with 24 payload symbols, and [Parse] rejects its
    text. *)
Theorem round_trip_broken :
  exists id,
    New (lit "acc") ten_minutes sample_rnd = Ok id
    /\ String id = Returned (lit "acc-11mAMznRTh4q4WTXX29UJjj9")
    /\ Parse (lit "acc-11mAMznRTh4q4WTXX29UJjj9") = Err errStringSizeMismatch.
Proof.
  eexists. split; [vm_compute; reflexivity|].
  split; vm_compute; reflexivity.
Qed.

(** C8, as stated, fails: the text generated with "rid" on 2026-12-01
    parses, and the parsed identifier is written with 30 characters. *)
Lemma Parse_GenerateWithPrefix_counterexample :
  exists id,
    GenerateWithPrefix (lit "rid") dec_2026 sample_rnd
    = Returned (lit "rid-21WEdFvVpKrBCuRWxseMsafU3D")
    /\ Parse (lit "rid-21WEdFvVpKrBCuRWxseMsafU3D") = Ok id
    /\ String id = Returned (lit "rid-21WEdFvVpKrBCuRWxseMsafU3D")
    /\ length (lit "rid-21WEdFvVpKrBCuRWxseMsafU3D") <> 29.
Proof.
  eexists. split; [vm_compute; reflexivity|].
  split; [vm_compute; reflexivity|].
  split; [vm_compute; reflexivity | vm_compute; discriminate].
Qed.

(** C8, amended: [GenerateWithPrefix "rid"] always returns a text that
    starts with "rid-"; when its encoded payload has at least 25 symbols,
    [Parse] of the text succeeds, and the parsed identifier is written as
    the same text, of 29 or 30 characters. *)
Theorem Parse_GenerateWithPrefix_rid (elapsed : Z) (rnd : bytes) :
  exists s,
    GenerateWithPrefix (lit "rid") elapsed rnd = Returned s
    /\ firstn 4 s = lit "rid-"
    /\ (25 <= length (base58.EncodeAlphabet (payload elapsed rnd) alphabets) ->
        exists id,
          Parse s = Ok id
          /\ String id = Returned s
          /\ (length s = 29 \/ length s = 30)).
Proof.
  assert (Hv : validatePrefix (lit "rid") true = None) by reflexivity.
  pose proof (payload_length elapsed rnd) as Hpl.
  pose proof (String_payload (lit "rid") (payload elapsed rnd) Hv Hpl) as Hs.
  pose proof (Encode_payload_length (payload elapsed rnd) Hpl) as He.
  exists (prefix_part (lit "rid") ++ base58.EncodeAlphabet (payload elapsed rnd) alphabets).
  split; [|split].
  - unfold GenerateWithPrefix, New.
    change (TrimSuffix (lit "rid") separator) with (lit "rid").
    rewrite (newID_shape _ _ _ Hv). exact Hs.
  - reflexivity.
  - intros H25.
    destruct (Parse_String_generated (lit "rid") elapsed rnd _
                (newID_shape _ _ _ Hv) H25) as (s & Hs' & Hp).
    rewrite Hs in Hs'. injection Hs' as <-.
    eexists. split; [exact Hp|]. split; [exact Hs|].
    rewrite length_app in *. change (length (prefix_part (lit "rid"))) with 4 in *. lia.
Qed.

Lemma Parse_GenerateWithPrefix_rid_witness :
  25 <= length (base58.EncodeAlphabet (payload nov_2026 sample_rnd) alphabets)
  /\ exists s,
       GenerateWithPrefix (lit "rid") nov_2026 sample_rnd = Returned s
       /\ exists id, Parse s = Ok id /\ String id = Returned s.
Proof.
  assert (H : 25 <= length (base58.EncodeAlphabet (payload nov_2026 sample_rnd) alphabets))
    by (vm_compute; lia).
  split; [exact H|].
  destruct (Parse_GenerateWithPrefix_rid nov_2026 sample_rnd) as (s & Hg & _ & Hp).
  exists s. split; [exact Hg|].
  destruct (Hp H) as (id & Hid & Hs & _). exists id. now split.
Defined.

(** ** Scanning *)

Lemma Scan_source_bytes (t : ID) (src : source) (b : bytes) :
  source_bytes src = Some b -> Scan t src = scan t b.
Proof.
  intros Hsrc.
  destruct src; simpl in Hsrc; try discriminate; injection Hsrc as <-; reflexivity.
Qed.

Lemma scan_other_length (t : ID) (b : bytes) :
  ~ In (length b) [0; 19; 22; 25; 28] -> scan t b = (t, Some errBytesSizeMismatch).
Proof.
  intros Hn. cbn [In] in Hn.
  unfold scan, byteLength, timeBytesLen, randomBytesLen,
    prefixAllowedLen, stringEncodedLen. cbn [Nat.add].
  destruct (Nat.eqb_spec (length b) 0); [exfalso; apply Hn; auto|].
  destruct (Nat.eqb_spec (length b) 19); [exfalso; apply Hn; auto|].
  destruct (Nat.eqb_spec (length b) 22); [exfalso; apply Hn; auto|].
  destruct (Nat.eqb_spec (length b) 25); [exfalso; apply Hn; auto 6|].
  destruct (Nat.eqb_spec (length b) 28); [exfalso; apply Hn; auto 6|].
  reflexivity.
Qed.

(** C5, as stated, fails: a nil source has length 0, which is none of 19,
    22, 25 and 28, and [Scan] returns no error for it. *)
Lemma Scan_dispatch_counterexample :
  source_bytes SrcNil = Some []
  /\ ~ In (length (@nil byte)) [19; 22; 25; 28]
  /\ Scan (lit "abc") SrcNil = (lit "abc", None).
Proof.
  split; [reflexivity|]. split; [|reflexivity].
  simpl. intros [H|[H|[H|[H|[]]]]]; discriminate.
Qed.

(** C5, amended: [Scan] dispatches on the byte length alone.  Length 0
    (a nil or empty source) is accepted with no error and the receiver left
    as it is; lengths 19 and 22 go to the binary decoding, lengths 25 and 28
    to the textual decoding; every other length is the bytes-size error and
    the receiver is left as it is. *)
Theorem Scan_dispatch (t : ID) (src : source) (b : bytes) :
  source_bytes src = Some b ->
  (length b = 0 -> Scan t src = (t, None))
  /\ (length b = 19 \/ length b = 22 -> Scan t src = UnmarshalBinary t b)
  /\ (length b = 25 \/ length b = 28 -> Scan t src = UnmarshalText t b)
  /\ (~ In (length b) [0; 19; 22; 25; 28] -> Scan t src = (t, Some errBytesSizeMismatch)).
Proof.
  intros Hsrc. rewrite (Scan_source_bytes t src b Hsrc).
  split; [|split; [|split]].
  - unfold scan. intros ->. reflexivity.
  - unfold scan, byteLength, timeBytesLen, randomBytesLen, prefixAllowedLen.
    intros [-> | ->]; reflexivity.
  - unfold scan, byteLength, timeBytesLen, randomBytesLen, prefixAllowedLen,
      stringEncodedLen.
    intros [-> | ->]; reflexivity.
  - apply scan_other_length.
Qed.

Lemma Scan_dispatch_witness :
  source_bytes (SrcString (lit "1234567")) = Some (lit "1234567")
  /\ ~ In (length (lit "1234567")) [0; 19; 22; 25; 28]
  /\ Scan (lit "abc") (SrcString (lit "1234567")) = (lit "abc", Some errBytesSizeMismatch).
Proof.
  assert (Hn : ~ In (length (lit "1234567")) [0; 19; 22; 25; 28]).
  { simpl. intros [H|[H|[H|[H|[H|[]]]]]]; discriminate. }
  split; [reflexivity|]. split; [exact Hn|].
  apply (Scan_dispatch (lit "abc") (SrcString (lit "1234567")) (lit "1234567") eq_refl).
  exact Hn.
Defined.

(** ** The size check of [Parse] *)

Lemma parseInternal_size (p text : bytes) :
  parseInternal p text = Err errStringSizeMismatch <-> length text < 25.
Proof.
  unfold parseInternal, stringEncodedLen.
  destruct (Nat.ltb_spec (length text) 25) as [H|H]; [tauto|].
  split; [|lia]. intros E. exfalso.
  destruct (validatePrefix_not_size p false) as [Hs _].
  destruct (validatePrefix p false) as [e|]; [congruence|].
  destruct (base58.DecodeAlphabet text alphabets) as [bs|]; [|discriminate].
  unfold FromBytes in E. destruct (_ <? _); discriminate.
Qed.

(** C6, as stated, fails: two texts of 25 characters with no separator that
    [Parse] rejects, one for a character outside the alphabet and one for
    decoding to 18 bytes. *)
Lemma Parse_size_counterexample :
  length (lit "0000000000000000000000000") = 25
  /\ Index (lit "0000000000000000000000000") separator = None
  /\ Parse (lit "0000000000000000000000000") = Err errInvalidBase58
  /\ length (lit "2111111111111111111111111") = 25
  /\ Index (lit "2111111111111111111111111") separator = None
  /\ Parse (lit "2111111111111111111111111") = Err errBytesSizeMismatch.
Proof. repeat split; vm_compute; reflexivity. Qed.

(** C6, amended: a text of 24 characters with no separator fails with the
    string-size error.  A text of 25 characters with no separator passes the
    size check: it fails with the encoding error when it does not decode,
    with the bytes-size error when it decodes to fewer than 19 bytes, and
    succeeds with the decoded bytes otherwise.  In general [Parse] returns
    the string-size error exactly when the encoded payload text is shorter
    than 25 characters. *)
Theorem Parse_size_check (text : bytes) :
  (Index text separator = None -> length text = 24 ->
   Parse text = Err errStringSizeMismatch)
  /\ (Index text separator = None -> length text = 25 ->
      Parse text <> Err errStringSizeMismatch
      /\ Parse text = match base58.DecodeAlphabet text alphabets with
                      | None => Err errInvalidBase58
                      | Some bs => if length bs <? 19 then Err errBytesSizeMismatch
                                   else Ok bs
                      end)
  /\ (Parse text = Err errStringSizeMismatch <-> length (payload_text text) < 25).
Proof.
  split; [|split].
  - intros Hi Hl. unfold Parse. rewrite Hi, Hl. reflexivity.
  - intros Hi Hl.
    assert (E : Parse text = parseInternal (lit "") text)
      by (unfold Parse; rewrite Hi, Hl; reflexivity).
    rewrite E. split.
    + rewrite parseInternal_size. lia.
    + unfold parseInternal, stringEncodedLen. rewrite Hl.
      change (25 <? 25) with false. cbv iota.
      rewrite validatePrefix_empty.
      destruct (base58.DecodeAlphabet text alphabets) as [bs|]; [|reflexivity].
      change (lit "" ++ bs) with bs.
      destruct (Nat.ltb_spec (length bs) 19);
        [now apply FromBytes_err | now apply FromBytes_ok].
  - unfold Parse, payload_text. destruct (Index text separator) as [i|].
    + apply parseInternal_size.
    + unfold stringEncodedLen. destruct (Nat.leb_spec 25 (length text)) as [H|H].
      * rewrite parseInternal_size. lia.
      * tauto.
Qed.

Lemma Parse_size_check_witness :
  Index (lit "zXXMx4eht1PaLRp7vSA4iBXY") separator = None
  /\ length (lit "zXXMx4eht1PaLRp7vSA4iBXY") = 24
  /\ Parse (lit "zXXMx4eht1PaLRp7vSA4iBXY") = Err errStringSizeMismatch.
Proof.
  split; [reflexivity|]. split; [reflexivity|].
  apply (proj1 (Parse_size_check (lit "zXXMx4eht1PaLRp7vSA4iBXY"))); reflexivity.
Defined.

(** ** Construction from bytes *)

Lemma array_app_old (h l : Mem.heap) (a : nat) :
  a < length h -> Mem.array (h ++ l) a = Mem.array h a.
Proof. intros H. unfold Mem.array. now apply app_nth1. Qed.

Lemma array_app_new (h : Mem.heap) (v : bytes) :
  Mem.array (h ++ [v]) (length h) = v.
Proof. unfold Mem.array. apply nth_middle. Qed.

Lemma set_array_app_new (h : Mem.heap) (z v : bytes) :
  Mem.set_array (h ++ [z]) (length h) v = h ++ [v].
Proof. induction h as [|x h IH]; simpl; [reflexivity | now rewrite IH]. Qed.

Lemma array_set_array_other (h : Mem.heap) (a a' : nat) (v : bytes) :
  a <> a' -> Mem.array (Mem.set_array h a v) a' = Mem.array h a'.
Proof.
  revert a a'. induction h as [|x h IH]; intros a a' Hne; [reflexivity|].
  destruct a as [|a]; destruct a' as [|a']; simpl; try reflexivity; try lia.
  apply (IH a a'). lia.
Qed.

Lemma load_length (h : Mem.heap) (s : Mem.slice) :
  Mem.valid h s -> length (Mem.load h s) = Mem.len s.
Proof.
  intros [_ H]. unfold Mem.load. rewrite length_firstn, length_skipn. lia.
Qed.

Lemma load_app_old (h l : Mem.heap) (s : Mem.slice) :
  Mem.arr s < length h -> Mem.load (h ++ l) s = Mem.load h s.
Proof. intros H. unfold Mem.load. now rewrite array_app_old. Qed.

Lemma copy_range_whole (src : bytes) :
  copy_range (repeat x00 (length src)) 0 (0 + length src) src = src.
Proof.
  unfold copy_range. cbn [firstn skipn Nat.add app]. rewrite Nat.sub_0_r.
  rewrite firstn_all2 by (rewrite repeat_length; lia).
  rewrite skipn_all2 by (rewrite repeat_length; lia).
  now rewrite app_nil_r, copy_all.
Qed.

Lemma Mem_FromBytes_ok (h : Mem.heap) (b : Mem.slice) :
  Mem.valid h b -> 19 <= Mem.len b ->
  Mem.FromBytes h b
  = (h ++ [Mem.load h b], Ok (Mem.mkSlice (length h) 0 (Mem.len b))).
Proof.
  intros Hv Hl. unfold Mem.FromBytes, Mem.make, byteLength, timeBytesLen, randomBytesLen.
  cbn [Nat.add]. destruct (Nat.ltb_spec (Mem.len b) 19); [lia|].
  f_equal. unfold Mem.copy_slice. cbn [Mem.arr Mem.off Mem.len].
  rewrite array_app_new, (load_app_old h _ b (proj1 Hv)).
  rewrite <- (load_length h b Hv), copy_range_whole.
  apply set_array_app_new.
Qed.

(** C7: [FromBytes] fails, with the bytes-size error, exactly on fewer than
    19 bytes.  Otherwise it returns all the bytes of its argument, those
    past index 18 included, in an array allocated by the call: the
    argument's array is another one, and no write through a slice of an
    array that existed before the call changes the identifier. *)
Theorem FromBytes_defensive_copy (h : Mem.heap) (b : Mem.slice) :
  Mem.valid h b ->
  let raw := Mem.load h b in
  let h' := fst (Mem.FromBytes h b) in
  let r := snd (Mem.FromBytes h b) in
  (FromBytes raw = Err errBytesSizeMismatch <-> length raw < 19)
  /\ (r = Err errBytesSizeMismatch <-> length raw < 19)
  /\ (19 <= length raw ->
      FromBytes raw = Ok raw
      /\ exists id,
           r = Ok id
           /\ Mem.load h' id = raw
           /\ Mem.arr id <> Mem.arr b
           /\ length h <= Mem.arr id
           /\ Mem.load h' b = raw
           /\ forall c i x, Mem.arr c < length h ->
                            Mem.load (Mem.store h' c i x) id = raw).
Proof.
  intros Hv raw h' r. pose proof (load_length h b Hv) as Hlen. fold raw in Hlen.
  split; [|split].
  - destruct (Nat.lt_ge_cases (length raw) 19) as [H|H].
    + rewrite (FromBytes_err raw H). tauto.
    + rewrite (FromBytes_ok raw H). split; [discriminate | lia].
  - subst r. destruct (Nat.lt_ge_cases (length raw) 19) as [H|H].
    + unfold Mem.FromBytes, Mem.make, byteLength, timeBytesLen, randomBytesLen.
      cbn [Nat.add]. destruct (Nat.ltb_spec (Mem.len b) 19); [tauto | lia].
    + rewrite Mem_FromBytes_ok by (assumption || lia).
      split; [discriminate | lia].
  - intros H. split; [now apply FromBytes_ok|].
    assert (E : Mem.FromBytes h b
                = (h ++ [raw], Ok (Mem.mkSlice (length h) 0 (Mem.len b))))
      by (apply Mem_FromBytes_ok; [assumption | lia]).
    subst h' r. rewrite E. cbn [fst snd].
    assert (Hid : forall g, Mem.array g (length h) = raw ->
                            Mem.load g (Mem.mkSlice (length h) 0 (Mem.len b)) = raw).
    { intros g Hg. unfold Mem.load. cbn [Mem.arr Mem.off Mem.len skipn].
      rewrite Hg. apply firstn_all2. lia. }
    eexists. split; [reflexivity|]. destruct Hv as [Ha Hb].
    split; [apply Hid, array_app_new|].
    cbn [Mem.arr]. split; [lia|]. split; [lia|].
    split; [now apply load_app_old|].
    intros c i x Hc. apply Hid. unfold Mem.store.
    destruct (i <? Mem.len c); [|apply array_app_new].
    rewrite array_set_array_other by lia. apply array_app_new.
Qed.

Lemma FromBytes_defensive_copy_witness :
  Mem.valid [lit "xy0123456789abcdefghijk"] (Mem.mkSlice 0 2 20)
  /\ FromBytes (lit "0123456789abcdefghij") = Ok (lit "0123456789abcdefghij").
Proof.
  assert (Hv : Mem.valid [lit "xy0123456789abcdefghijk"] (Mem.mkSlice 0 2 20))
    by (split; simpl; lia).
  split; [exact Hv|].
  apply (FromBytes_defensive_copy _ _ Hv). simpl. lia.
Defined.

(** ** Binary round trip of a prefixed identifier *)

(** C9: an identifier generated with a non-empty valid prefix has 23 bytes,
    and so have its [Bytes] and its [Value]; [Scan] of any 23-byte source
    returns the bytes-size error and leaves the receiver as it is, so
    scanning the [Value] of such an identifier never succeeds. *)
Theorem prefixed_Value_Scan_fails (p : bytes) (elapsed : Z) (rnd : bytes) :
  validatePrefix p true = None -> p <> [] ->
  exists id,
    New p elapsed rnd = Ok id
    /\ length id = 23
    /\ length (Bytes id) = 23
    /\ Value id = Ok id
    /\ (forall t src b, source_bytes src = Some b -> length b = 23 ->
                        Scan t src = (t, Some errBytesSizeMismatch))
    /\ (forall t, Scan t (SrcBytes id) = (t, Some errBytesSizeMismatch)).
Proof.
  intros Hv Hne. exists (prefix_part p ++ payload elapsed rnd).
  assert (Hl : length (prefix_part p ++ payload elapsed rnd) = 23).
  { rewrite length_app, payload_length.
    destruct (prefix_part_cases p Hv) as [[-> _] | (Hp & _ & ->)]; [contradiction|].
    rewrite length_app, Hp. reflexivity. }
  assert (Hscan : forall t src b, source_bytes src = Some b -> length b = 23 ->
                                  Scan t src = (t, Some errBytesSizeMismatch)).
  { intros t src b Hsrc Hb.
    rewrite (Scan_source_bytes t src b Hsrc). apply scan_other_length.
    rewrite Hb. simpl. intros [H|[H|[H|[H|[H|[]]]]]]; discriminate. }
  split; [now apply newID_shape|]. split; [exact Hl|]. split; [exact Hl|].
  split; [reflexivity|]. split; [exact Hscan|].
  intros t. now apply (Hscan t (SrcBytes _) _ eq_refl).
Qed.

Lemma prefixed_Value_Scan_fails_witness :
  validatePrefix (lit "acc") true = None
  /\ lit "acc" <> []
  /\ exists id, New (lit "acc") nov_2026 sample_rnd = Ok id /\ length id = 23.
Proof.
  split; [reflexivity|]. split; [discriminate|].
  destruct (prefixed_Value_Scan_fails (lit "acc") nov_2026 sample_rnd eq_refl)
    as (id & Hn & Hl & _); [discriminate|].
  exists id. now split.
Defined.

(** ** A parsed identifier that cannot be written *)

(** C10: [Parse] puts no upper bound on a text without separator: one of
    more than 25 characters is decoded and handed to [FromBytes].  When it
    decodes to more than 19 bytes with no separator byte among them, [Parse]
    succeeds and [String] panics on the identifier returned; 26 times the
    symbol "1" is such a text. *)
Theorem Parse_long_String_panics :
  (forall text bs,
      Index text separator = None -> 25 < length text ->
      base58.DecodeAlphabet text alphabets = Some bs ->
      19 < length bs -> Index bs separatorBytes = None ->
      Parse text = Ok bs /\ String bs = Panicked)
  /\ (exists text bs,
        Index text separator = None /\ 25 < length text
        /\ base58.DecodeAlphabet text alphabets = Some bs
        /\ 19 < length bs /\ ~ In "-"%byte bs
        /\ Parse text = Ok bs /\ String bs = Panicked).
Proof.
  split.
  - intros text bs Hi Hl Hd Hb Hs. split.
    + unfold Parse, parseInternal, stringEncodedLen. rewrite Hi.
      destruct (Nat.leb_spec 25 (length text)); [|lia].
      destruct (Nat.ltb_spec (length text) 25); [lia|].
      rewrite validatePrefix_empty, Hd. apply FromBytes_ok.
      change (lit "" ++ bs) with bs. lia.
    + unfold String, byteLength, timeBytesLen, randomBytesLen. cbn [Nat.add].
      destruct (Nat.ltb_spec 19 (length bs)); [|lia]. now rewrite Hs.
  - exists (repeat "1"%byte 26), (repeat x00 26).
    split; [reflexivity|]. split; [simpl; lia|]. split; [vm_compute; reflexivity|].
    split; [simpl; lia|]. split; [|split; vm_compute; reflexivity].
    intros H. apply repeat_spec in H. discriminate.
Qed.

Lemma Parse_long_String_panics_witness :
  Parse (repeat "1"%byte 26) = Ok (repeat x00 26)
  /\ String (repeat x00 26) = Panicked.
Proof.
  apply (proj1 Parse_long_String_panics).
  - reflexivity.
  - simpl. lia.
  - vm_compute. reflexivity.
  - simpl. lia.
  - reflexivity.
Defined.


(** * Further properties *)

(** ** Prefix validation *)

Lemma Contains_single_true (c : byte) (s : bytes) :
  Contains s [c] = true <-> In c s.
Proof.
  destruct (Contains s [c]) eqn:E.
  - split; [|reflexivity]. intros _.
    destruct (in_dec Byte.byte_eq_dec c s) as [H|H]; [exact H|].
    apply Contains_single in H. congruence.
  - apply Contains_single in E. split; [discriminate | contradiction].
Qed.

Lemma validatePrefix_separator_iff (p : bytes) :
  validatePrefix p true = Some errPrefixSeparator <-> In "-"%byte p.
Proof.
  unfold validatePrefix. cbn [negb]. change separator with ["-"%byte].
  rewrite <- Contains_single_true.
  destruct (Contains p ["-"%byte]); [tauto|].
  destruct (Contains p (lit " ")); [split; discriminate|].
  destruct (_ && _); split; discriminate.
Qed.

Lemma validatePrefix_errors (p : bytes) (m : bool) (e : error) :
  validatePrefix p m = Some e ->
  e = errPrefixSeparator \/ e = errPrefixWhitespace \/ e = errPrefixLength.
Proof.
  unfold validatePrefix.
  destruct (Contains _ separator); [intros [= <-]; auto|].
  destruct (Contains _ (lit " ")); [intros [= <-]; auto|].
  destruct (_ && _); [intros [= <-]; auto | discriminate].
Qed.

(** X1: in generation mode a prefix with a separator is refused for the
    separator, else one with a space for the whitespace, else one of a
    length other than 0 and 3 for its length, and every other prefix is
    accepted; the space is the only whitespace looked for.  In parsing mode
    one separator at the end is dropped first. *)
Theorem validatePrefix_cases (p : bytes) :
  (validatePrefix p true = Some errPrefixSeparator <-> In "-"%byte p)
  /\ (validatePrefix p true = Some errPrefixWhitespace <->
      ~ In "-"%byte p /\ In " "%byte p)
  /\ (validatePrefix p true = Some errPrefixLength <->
      ~ In "-"%byte p /\ ~ In " "%byte p /\ length p <> 0 /\ length p <> 3)
  /\ (validatePrefix p true = None <->
      ~ In "-"%byte p /\ ~ In " "%byte p /\ (length p = 0 \/ length p = 3))
  /\ validatePrefix (p ++ separator) false = validatePrefix p true
  /\ (~ In "-"%byte p -> validatePrefix p false = validatePrefix p true).
Proof.
  split; [|split; [|split; [|split; [|split]]]].
  - apply validatePrefix_separator_iff.
  - unfold validatePrefix. cbn [negb].
    change separator with ["-"%byte]. change (lit " ") with [" "%byte].
    rewrite <- Contains_single, <- Contains_single_true.
    destruct (Contains p ["-"%byte]); [split; [discriminate | intros [? _]; discriminate]|].
    destruct (Contains p [" "%byte]); [tauto|].
    destruct (_ && _); split; try discriminate; intros [_ ?]; discriminate.
  - unfold validatePrefix. cbn [negb].
    change separator with ["-"%byte]. change (lit " ") with [" "%byte].
    rewrite <- !Contains_single.
    destruct (Contains p ["-"%byte]); [split; [discriminate | intros [? _]; discriminate]|].
    destruct (Contains p [" "%byte]);
      [split; [discriminate | intros (_ & ? & _); discriminate]|].
    unfold prefixAllowedLen.
    destruct (Nat.ltb_spec 0 (length p)); destruct (Nat.eqb_spec (length p) 3);
      cbn [andb negb]; split; try discriminate; try (intros (_ & _ & ? & ?); lia);
      try reflexivity; intros _; repeat split; lia.
  - apply validatePrefix_strict_None.
  - apply validatePrefix_trailing.
  - intros Hn. unfold validatePrefix. cbn [negb].
    change separator with ["-"%byte].
    now rewrite (TrimSuffix_single_absent "-"%byte p Hn).
Qed.

Lemma validatePrefix_cases_witness :
  ~ In "-"%byte (lit "acc")
  /\ validatePrefix (lit "acc") false = validatePrefix (lit "acc") true.
Proof.
  assert (H : ~ In "-"%byte (lit "acc")).
  { cbv. intros [H|[H|[H|[]]]]; discriminate. }
  split; [exact H|].
  apply (validatePrefix_cases (lit "acc")). exact H.
Defined.


(** ** Outcomes of [Parse] *)

Lemma Parse_cut (text : bytes) (i : nat) :
  Index text separator = Some i ->
  exists p r,
    text = p ++ separator ++ r /\ ~ In "-"%byte p /\ payload_text text = r
    /\ firstn (length text - length (payload_text text)) text = p ++ separator
    /\ Parse text = parseInternal (p ++ separator) r.
Proof.
  intros Hi. change separator with ["-"%byte] in *.
  destruct (Index_single_Some _ _ _ Hi) as (p & r & -> & Hl & Hn).
  exists p, r. split; [reflexivity|]. split; [exact Hn|].
  assert (Hp : payload_text (p ++ "-"%byte :: r) = r).
  { unfold payload_text. change separator with ["-"%byte].
    rewrite Hi, <- Hl. apply skipn_succ_app. }
  split; [exact Hp|]. split.
  - rewrite Hp, length_app. cbn [length app].
    replace (length p + S (length r) - length r) with (length p + 1) by lia.
    apply firstn_succ_app.
  - now apply (Parse_separated p r).
Qed.

(** X2: [Parse] fails only with the string-size, whitespace, prefix-length,
    encoding or bytes-size error, never for a separator in the prefix, since
    the prefix ends at the first separator.  When it succeeds the
    payload text has at least 25 characters and decodes, and the identifier
    is the text up to and including the first separator (nothing when there
    is none) followed by the decoded bytes, at least 19 bytes in all. *)
Theorem Parse_outcomes (text : bytes) :
  (forall e, Parse text = Err e ->
             e = errStringSizeMismatch \/ e = errPrefixWhitespace
             \/ e = errPrefixLength \/ e = errInvalidBase58
             \/ e = errBytesSizeMismatch)
  /\ (forall id, Parse text = Ok id ->
        25 <= length (payload_text text)
        /\ 19 <= length id
        /\ exists bs,
             base58.DecodeAlphabet (payload_text text) alphabets = Some bs
             /\ id = firstn (length text - length (payload_text text)) text ++ bs).
Proof.
  assert (Hin : forall p r,
             (validatePrefix p false <> Some errPrefixSeparator) ->
             (forall e, parseInternal p r = Err e ->
                        e = errStringSizeMismatch \/ e = errPrefixWhitespace
                        \/ e = errPrefixLength \/ e = errInvalidBase58
                        \/ e = errBytesSizeMismatch)
             /\ (forall id, parseInternal p r = Ok id ->
                   25 <= length r /\ 19 <= length id
                   /\ exists bs, base58.DecodeAlphabet r alphabets = Some bs
                                 /\ id = p ++ bs)).
  { intros p r Hp. unfold parseInternal, stringEncodedLen.
    destruct (Nat.ltb_spec (length r) 25) as [Hr|Hr].
    { split; [intros e [= <-]; auto | discriminate]. }
    destruct (validatePrefix p false) as [e0|] eqn:Ev.
    { split; [|discriminate]. intros e [= <-].
      destruct (validatePrefix_errors _ _ _ Ev) as [-> | [-> | ->]]; auto. contradiction. }
    destruct (base58.DecodeAlphabet r alphabets) as [bs|]; [|split; [intros e [= <-]; auto 6 | discriminate]].
    destruct (Nat.lt_ge_cases (length (p ++ bs)) 19) as [Hb|Hb].
    - rewrite (FromBytes_err _ Hb). split; [intros e [= <-]; auto 6 | discriminate].
    - rewrite (FromBytes_ok _ Hb). split; [discriminate|].
      intros id [= <-]. split; [lia|]. split; [exact Hb|]. now exists bs. }
  destruct (Index text separator) as [i|] eqn:Hi.
  - destruct (Parse_cut text i Hi) as (p & r & Ht & Hn & Hp & Hf & HP).
    rewrite HP, Hf, Hp. apply Hin.
    rewrite validatePrefix_trailing. intros H.
    apply validatePrefix_separator_iff in H. contradiction.
  - assert (Hp : payload_text text = text) by (unfold payload_text; now rewrite Hi).
    rewrite Hp, Nat.sub_diag. cbn [firstn app].
    unfold Parse. rewrite Hi. unfold stringEncodedLen.
    destruct (Nat.leb_spec 25 (length text)) as [Hl|Hl].
    + apply (Hin (lit "") text). rewrite validatePrefix_empty. discriminate.
    + split; [intros e [= <-]; auto | discriminate].
Qed.

Lemma Parse_outcomes_witness :
  Parse (lit "acc-zXXMx4eht1PaLRp7vSA4iBXYF")
  = Ok (lit "acc-" ++ payload nov_2026 sample_rnd)
  /\ 19 <= length (lit "acc-" ++ payload nov_2026 sample_rnd).
Proof.
  assert (H : Parse (lit "acc-zXXMx4eht1PaLRp7vSA4iBXYF")
              = Ok (lit "acc-" ++ payload nov_2026 sample_rnd))
    by (vm_compute; reflexivity).
  split; [exact H|].
  apply (proj2 (Parse_outcomes (lit "acc-zXXMx4eht1PaLRp7vSA4iBXYF")) _ H).
Defined.

(** ** Generation *)

Lemma stamp_length (ts : Z) : length (stamp ts) = 7.
Proof. reflexivity. Qed.

Lemma payload_full (elapsed : Z) (rnd : bytes) :
  length rnd = 12 -> payload elapsed rnd = stamp (shifted (ticks elapsed)) ++ rnd.
Proof.
  intros H. unfold payload, randomBytesLen. now rewrite <- H, copy_all.
Qed.

(** X3: [New] fails exactly when the prefix is refused, with the error of
    the validation.  For an accepted prefix and the twelve bytes of the
    entropy source, the identifier is the prefix and the separator (nothing
    for the empty prefix), then the seven timestamp bytes, then the random
    bytes as they are: 19 bytes for the empty prefix and 23 otherwise. *)
Theorem New_layout (p : bytes) (elapsed : Z) (rnd : bytes) :
  length rnd = 12 ->
  (forall e, New p elapsed rnd = Err e <-> validatePrefix p true = Some e)
  /\ (validatePrefix p true = None ->
      New p elapsed rnd
      = Ok (prefix_part p ++ stamp (shifted (ticks elapsed)) ++ rnd)
      /\ (p = [] -> prefix_part p = [])
      /\ (p <> [] -> prefix_part p = p ++ separator /\ length p = 3)
      /\ length (prefix_part p ++ stamp (shifted (ticks elapsed)) ++ rnd)
         = length (prefix_part p) + 19).
Proof.
  intros Hr. split.
  - intros e. unfold New. destruct (validatePrefix p true) as [e0|] eqn:Ev.
    + rewrite (newID_error _ _ _ _ Ev). split; congruence.
    + rewrite (newID_shape _ _ _ Ev). split; discriminate.
  - intros Hv. unfold New. rewrite (newID_shape _ _ _ Hv), (payload_full _ _ Hr).
    split; [reflexivity|]. split; [now intros ->|]. split.
    + intros Hne. destruct (prefix_part_cases p Hv) as [[-> _] | (Hl & _ & E)];
        [contradiction | now split].
    + rewrite !length_app, stamp_length, Hr. reflexivity.
Qed.

Lemma New_layout_witness :
  length sample_rnd = 12
  /\ validatePrefix (lit "acc") true = None
  /\ New (lit "acc") nov_2026 sample_rnd
     = Ok (prefix_part (lit "acc") ++ stamp (shifted (ticks nov_2026)) ++ sample_rnd).
Proof.
  split; [reflexivity|]. split; [reflexivity|].
  apply (New_layout (lit "acc") nov_2026 sample_rnd eq_refl). reflexivity.
Defined.



(** ** Reading the time back *)

(** X5: the seven timestamp bytes of a generated identifier, read as a
    big-endian number, are the tick count modulo 2^56; for an elapsed time
    from 0 up to 2^56 ticks they are [elapsed / 100], so two clock readings
    in that range give the same timestamp bytes exactly when they fall in
    the same 100-nanosecond tick. *)
Theorem timestamp_read_back (p : bytes) (elapsed : Z) (rnd : bytes) :
  validatePrefix p true = None ->
  exists id,
    New p elapsed rnd = Ok id
    /\ Z.of_N (be_value (firstn 7 (skipn (length (prefix_part p)) id)))
       = (ticks elapsed mod 2 ^ 56)%Z
    /\ ((0 <= elapsed < 2 ^ 56 * 100)%Z ->
        Z.of_N (be_value (firstn 7 (skipn (length (prefix_part p)) id)))
        = (elapsed / 100)%Z)
    /\ (forall elapsed',
          (0 <= elapsed < 2 ^ 56 * 100)%Z -> (0 <= elapsed' < 2 ^ 56 * 100)%Z ->
          (stamp (shifted (ticks elapsed)) = stamp (shifted (ticks elapsed'))
           <-> (elapsed / 100 = elapsed' / 100)%Z)).
Proof.
  intros Hv. exists (prefix_part p ++ payload elapsed rnd).
  assert (Hval : forall e,
             Z.of_N (be_value (stamp (shifted (ticks e)))) = (ticks e mod 2 ^ 56)%Z).
  { intros e. unfold be_value. rewrite stamp_value by apply shifted_range.
    rewrite shifted_eq, Z.shiftr_div_pow2 by lia.
    change (2 ^ 8)%Z with 256%Z. apply Z.div_mul. lia. }
  assert (Hsmall : forall e, (0 <= e < 2 ^ 56 * 100)%Z ->
                             (ticks e mod 2 ^ 56 = e / 100)%Z).
  { intros e He. unfold ticks. rewrite Z.quot_div_nonneg by lia.
    assert (0 <= e / 100 < 2 ^ 56)%Z.
    { split; [apply Z.div_pos; lia|]. apply Z.div_lt_upper_bound; lia. }
    rewrite (Z.mod_small (e / 100)) by lia. apply Z.mod_small. lia. }
  split; [now apply newID_shape|].
  rewrite skipn_length_app. unfold payload at 1 2.
  change (firstn 7 (stamp (shifted (ticks elapsed)) ++ copy (repeat x00 randomBytesLen) rnd))
    with (stamp (shifted (ticks elapsed))).
  split; [apply Hval|]. split.
  - intros He. now rewrite Hval, Hsmall.
  - intros e' He He'. split.
    + intros E. rewrite <- (Hsmall _ He), <- (Hsmall _ He'), <- !Hval. now rewrite E.
    + intros E. unfold ticks. rewrite !Z.quot_div_nonneg by lia. now rewrite E.
Qed.

Lemma timestamp_read_back_witness :
  validatePrefix (lit "acc") true = None
  /\ exists id,
       New (lit "acc") nov_2026 sample_rnd = Ok id
       /\ Z.of_N (be_value (firstn 7 (skipn (length (prefix_part (lit "acc"))) id)))
          = (nov_2026 / 100)%Z.
Proof.
  split; [reflexivity|].
  destruct (timestamp_read_back (lit "acc") nov_2026 sample_rnd eq_refl)
    as (id & Hn & _ & Hs & _).
  exists id. split; [exact Hn|]. apply Hs. unfold nov_2026. lia.
Defined.


(** ** Identifiers of the steady range *)

Lemma steady_ticks (elapsed : Z) :
  steady elapsed ->
  (ticks elapsed = elapsed / 100 /\ 2 ^ 48 <= ticks elapsed < 2 ^ 56)%Z.
Proof.
  unfold steady, ticks. intros He. rewrite Z.quot_div_nonneg by lia.
  assert (2 ^ 48 <= elapsed / 100 < 2 ^ 56)%Z.
  { split; [apply Z.div_le_lower_bound; lia | apply Z.div_lt_upper_bound; lia]. }
  rewrite Z.mod_small by lia. lia.
Qed.

Lemma byte_of_Z_nonzero (z : Z) : (0 < z < 256)%Z -> byte_of_Z z <> x00.
Proof.
  intros Hz E. pose proof (to_N_byte_of_Z z) as H. rewrite E in H.
  rewrite Z.mod_small in H by lia. simpl in H. lia.
Qed.

Lemma stamp_head (elapsed : Z) :
  steady elapsed ->
  exists x r, stamp (shifted (ticks elapsed)) = x :: r /\ x <> x00.
Proof.
  intros He. destruct (steady_ticks elapsed He) as [_ Ht].
  eexists _, _. split; [reflexivity|].
  apply byte_of_Z_nonzero. rewrite shifted_eq, Z.shiftr_div_pow2 by lia.
  rewrite Z.mod_small by lia.
  change (2 ^ 56)%Z with (2 ^ 48 * 256)%Z. rewrite Z.div_mul_cancel_r by lia.
  split; [apply Z.div_str_pos; lia | apply Z.div_lt_upper_bound; lia].
Qed.

Lemma be_value_stamp (elapsed : Z) :
  Z.of_N (be_value (stamp (shifted (ticks elapsed)))) = (ticks elapsed mod 2 ^ 56)%Z.
Proof.
  unfold be_value. rewrite stamp_value by apply shifted_range.
  rewrite shifted_eq, Z.shiftr_div_pow2 by lia.
  change (2 ^ 8)%Z with 256%Z. apply Z.div_mul. lia.
Qed.

Lemma be_value_lt (bs : bytes) : (be_value bs < 256 ^ N.of_nat (length bs))%N.
Proof.
  unfold be_value. rewrite <- (length_map Byte.to_N). apply of_digits_lt; [lia|].
  apply Forall_forall. intros d Hd. apply in_map_iff in Hd as (x & <- & _).
  apply to_N_lt.
Qed.

(** The payload as a number: the tick count of the 56-bit field times 2^96,
    plus the number of the twelve random bytes. *)
Lemma be_value_payload (elapsed : Z) (rnd : bytes) :
  exists R : N,
    (R < 2 ^ 96)%N
    /\ Z.of_N (be_value (payload elapsed rnd))
       = (ticks elapsed mod 2 ^ 56 * 2 ^ 96 + Z.of_N R)%Z.
Proof.
  exists (be_value (copy (repeat x00 randomBytesLen) rnd)). split.
  - pose proof (be_value_lt (copy (repeat x00 randomBytesLen) rnd)) as H.
    rewrite copy_length, repeat_length in H. exact H.
  - unfold payload, be_value at 1. rewrite map_app, of_digits_app, length_map.
    rewrite copy_length, repeat_length.
    rewrite N2Z.inj_add, N2Z.inj_mul. fold (be_value (stamp (shifted (ticks elapsed)))).
    rewrite be_value_stamp. reflexivity.
Qed.

Lemma Encode_nonzero_head (x : byte) (r : bytes) :
  x <> x00 ->
  base58.EncodeAlphabet (x :: r) alphabets
  = map (base58.encode_digit alphabets) (to_digits 58 (be_value (x :: r))).
Proof.
  intros Hx.
  assert (Hr : forall y r', x :: r = y :: r' -> y <> x00) by (now intros y r' [= <- _]).
  exact (EncodeAlphabet_zeros 0 (x :: r) Hr).
Qed.

Lemma Encode_steady_length (elapsed : Z) (rnd : bytes) :
  steady elapsed ->
  25 <= length (base58.EncodeAlphabet (payload elapsed rnd) alphabets) <= 26.
Proof.
  intros He. split; [|apply Encode_length_le, payload_length].
  destruct (stamp_head elapsed He) as (x & r & Es & Hx).
  pose proof (payload_length elapsed rnd) as Hl.
  unfold payload in *. rewrite Es in *. cbn [app] in *.
  generalize dependent (copy (repeat x00 randomBytesLen) rnd). intros tl Hl.
  rewrite (Encode_nonzero_head x _ Hx), length_map.
  apply (to_digits_length_gt 58 ltac:(lia) _ 24).
  assert (Hx0 : Byte.to_N x <> 0%N) by (intros H0; now apply to_N_zero in H0).
  pose proof (of_digits_ge 256 ltac:(lia) (Byte.to_N x)
                (map Byte.to_N (r ++ tl)) Hx0) as Hge.
  rewrite length_map in Hge.
  assert (Hl' : length (r ++ tl) = 18) by (cbn [length] in Hl; lia).
  rewrite Hl' in Hge. unfold be_value. cbn [map].
  assert (58 ^ N.of_nat 24 <= 256 ^ N.of_nat 18)%N by (vm_compute; discriminate).
  lia.
Qed.

(** The encoded payload has 25 symbols before the width change and 26
    after it. *)
Lemma Encode_steady_width (elapsed : Z) (rnd : bytes) :
  steady elapsed ->
  ((ticks elapsed < width_change)%Z ->
   length (base58.EncodeAlphabet (payload elapsed rnd) alphabets) = 25)
  /\ ((width_change < ticks elapsed)%Z ->
      length (base58.EncodeAlphabet (payload elapsed rnd) alphabets) = 26).
Proof.
  intros He. pose proof (Encode_steady_length elapsed rnd He) as [Hlo Hhi].
  destruct (steady_ticks elapsed He) as [_ Ht].
  destruct (be_value_payload elapsed rnd) as (R & HR & Hv).
  rewrite Z.mod_small in Hv by lia.
  destruct (stamp_head elapsed He) as (x & r & Es & Hx).
  assert (El : length (base58.EncodeAlphabet (payload elapsed rnd) alphabets)
               = length (to_digits 58 (be_value (payload elapsed rnd)))).
  { unfold payload. rewrite Es. cbn [app].
    now rewrite (Encode_nonzero_head x _ Hx), length_map. }
  rewrite El in *. unfold width_change.
  assert (H96 : Z.of_N (2 ^ 96) = (2 ^ 96)%Z) by reflexivity.
  assert (Hc1 : (1537518164588188 * 2 ^ 96 <= Z.of_N (58 ^ 25))%Z) by (vm_compute; discriminate).
  assert (Hc2 : (Z.of_N (58 ^ 25) <= 1537518164588189 * 2 ^ 96)%Z) by (vm_compute; discriminate).
  split; intros Hw.
  - assert (length (to_digits 58 (be_value (payload elapsed rnd))) <= 25); [|lia].
    apply (to_digits_length_le 58 ltac:(lia)). change (N.of_nat 25) with 25%N. nia.
  - assert (25 < length (to_digits 58 (be_value (payload elapsed rnd)))); [|lia].
    apply (to_digits_length_gt 58 ltac:(lia)). change (N.of_nat 25) with 25%N. nia.
Qed.

(** ** Width of the textual form *)





(** X6: for every accepted prefix and every clock reading of the steady
    range (from 2^48 ticks, about 326 days after the epoch, up to 2^56
    ticks), the text of the generated identifier parses back to the
    identifier, and so does its [MarshalText] through [UnmarshalText],
    whatever the receiver held. *)
Theorem text_round_trip (p : bytes) (elapsed : Z) (rnd : bytes) (t : ID) :
  validatePrefix p true = None -> steady elapsed ->
  exists id s,
    New p elapsed rnd = Ok id
    /\ String id = Returned s
    /\ Parse s = Ok id
    /\ MarshalText id = Returned (Ok s)
    /\ UnmarshalText t s = (id, None).
Proof.
  intros Hv He.
  pose proof (Encode_steady_length elapsed rnd He) as [H25 _].
  destruct (Parse_String_generated p elapsed rnd _ (newID_shape _ _ _ Hv) H25)
    as (s & Hs & Hp).
  exists (prefix_part p ++ payload elapsed rnd), s.
  split; [now apply newID_shape|]. split; [exact Hs|]. split; [exact Hp|].
  unfold MarshalText, UnmarshalText. rewrite Hs, Hp. split; reflexivity.
Qed.

Lemma text_round_trip_witness :
  validatePrefix (lit "acc") true = None /\ steady dec_2026
  /\ exists id s,
       New (lit "acc") dec_2026 sample_rnd = Ok id
       /\ String id = Returned s /\ Parse s = Ok id.
Proof.
  assert (Hs : steady dec_2026) by (unfold steady, dec_2026; lia).
  split; [reflexivity|]. split; [exact Hs|].
  destruct (text_round_trip (lit "acc") dec_2026 sample_rnd [] eq_refl Hs)
    as (id & s & H1 & H2 & H3 & _).
  exists id, s. auto.
Defined.

(** X7: in the steady range the encoded payload has 25 symbols while the
    tick count is below 1537518164588188 (58^25 / 2^96, reached about
    2026-11-15) and 26 symbols once it is above; the text of the identifier
    is that long without a prefix and four characters longer with one. *)
Theorem steady_text_width (p : bytes) (elapsed : Z) (rnd : bytes) :
  validatePrefix p true = None -> steady elapsed ->
  exists s,
    GenerateWithPrefix p elapsed rnd = Returned s
    /\ ((ticks elapsed < width_change)%Z -> length s = length (prefix_part p) + 25)
    /\ ((width_change < ticks elapsed)%Z -> length s = length (prefix_part p) + 26)
    /\ (length s = length (prefix_part p) + 25 \/ length s = length (prefix_part p) + 26)
    /\ (p = [] -> length (prefix_part p) = 0)
    /\ (p <> [] -> length (prefix_part p) = 4).
Proof.
  intros Hv He.
  assert (Hn : ~ In "-"%byte p) by (now apply validatePrefix_strict_None in Hv).
  exists (prefix_part p ++ base58.EncodeAlphabet (payload elapsed rnd) alphabets).
  split.
  - unfold GenerateWithPrefix, New. change separator with ["-"%byte].
    rewrite (TrimSuffix_single_absent _ _ Hn), (newID_shape _ _ _ Hv).
    apply String_payload; [exact Hv | apply payload_length].
  - rewrite length_app.
    destruct (Encode_steady_width elapsed rnd He) as [H25 H26].
    pose proof (Encode_steady_length elapsed rnd He) as Hb.
    split; [intros H; now rewrite (H25 H)|]. split; [intros H; now rewrite (H26 H)|].
    split; [lia|]. split; [now intros ->|].
    intros Hne. destruct (prefix_part_cases p Hv) as [[-> _] | (Hl & _ & ->)];
      [contradiction|]. rewrite length_app, Hl. reflexivity.
Qed.

Lemma steady_text_width_witness :
  validatePrefix (lit "acc") true = None /\ steady nov_2026
  /\ (ticks nov_2026 < width_change)%Z
  /\ exists s,
       GenerateWithPrefix (lit "acc") nov_2026 sample_rnd = Returned s
       /\ length s = length (prefix_part (lit "acc")) + 25.
Proof.
  assert (Hs : steady nov_2026) by (unfold steady, nov_2026; lia).
  assert (Hw : (ticks nov_2026 < width_change)%Z) by reflexivity.
  split; [reflexivity|]. split; [exact Hs|]. split; [exact Hw|].
  destruct (steady_text_width (lit "acc") nov_2026 sample_rnd eq_refl Hs)
    as (s & Hg & H25 & _).
  exists s. split; [exact Hg | now apply H25].
Defined.


(** ** Order of texts and order of bytes *)

Lemma bytes_compare_digits (a b : bytes) :
  bytes_compare a b = digits_compare (map Byte.to_N a) (map Byte.to_N b).
Proof.
  revert b. induction a as [|x a IH]; intros [|y b]; cbn [map bytes_compare digits_compare];
    try reflexivity.
  now rewrite IH.
Qed.

Lemma digits_compare_app_same (l a b : list N) :
  digits_compare (l ++ a) (l ++ b) = digits_compare a b.
Proof.
  induction l as [|x l IH]; [reflexivity|].
  cbn [app digits_compare]. now rewrite N.compare_refl.
Qed.

Lemma bytes_compare_app_same (l a b : bytes) :
  bytes_compare (l ++ a) (l ++ b) = bytes_compare a b.
Proof.
  rewrite !bytes_compare_digits, !map_app. apply digits_compare_app_same.
Qed.

Lemma digits_compare_antisym (a b : list N) :
  digits_compare b a = CompOpp (digits_compare a b).
Proof.
  revert b. induction a as [|x a IH]; intros [|y b]; cbn [digits_compare]; try reflexivity.
  rewrite (N.compare_antisym x y). destruct (N.compare x y); cbn [CompOpp]; auto.
Qed.

Lemma bytes_compare_antisym (a b : bytes) :
  bytes_compare b a = CompOpp (bytes_compare a b).
Proof. rewrite !bytes_compare_digits. apply digits_compare_antisym. Qed.

Lemma of_digits_cons (b d : N) (ds : list N) :
  of_digits b (d :: ds) = (d * b ^ N.of_nat (length ds) + of_digits b ds)%N.
Proof.
  change (d :: ds) with ([d] ++ ds). rewrite of_digits_app.
  unfold of_digits at 1. cbn [fold_left]. lia.
Qed.

(** Numerals of the same length compare as their values. *)
Lemma digits_compare_value (b : N) (ds1 ds2 : list N) :
  (2 <= b)%N -> length ds1 = length ds2 ->
  Forall (fun d => (d < b)%N) ds1 -> Forall (fun d => (d < b)%N) ds2 ->
  digits_compare ds1 ds2 = N.compare (of_digits b ds1) (of_digits b ds2).
Proof.
  intros Hb. revert ds2. induction ds1 as [|d1 ds1 IH]; intros [|d2 ds2] Hl H1 H2;
    try discriminate; [reflexivity|].
  injection Hl as Hl. inversion H1 as [|? ? Hd1 H1']; inversion H2 as [|? ? Hd2 H2']; subst.
  rewrite !of_digits_cons, <- Hl. cbn [digits_compare].
  pose proof (of_digits_lt b Hb ds1 H1') as Hr1.
  pose proof (of_digits_lt b Hb ds2 H2') as Hr2. rewrite <- Hl in Hr2.
  set (P := (b ^ N.of_nat (length ds1))%N) in *.
  destruct (N.compare_spec d1 d2) as [-> | Hlt | Hgt].
  - rewrite (IH ds2 Hl H1' H2').
    generalize (d2 * P)%N as c. intros c.
    destruct (N.compare_spec (of_digits b ds1) (of_digits b ds2)); symmetry;
      [apply N.compare_eq_iff | apply N.compare_lt_iff | apply N.compare_gt_iff]; lia.
  - symmetry. apply N.compare_lt_iff. nia.
  - symmetry. apply N.compare_gt_iff. nia.
Qed.

Lemma symbols_order_table :
  forallb (fun d1 => forallb (symbol_order_ok d1) (map N.of_nat (seq 0 58)))
    (map N.of_nat (seq 0 58)) = true.
Proof. vm_compute. reflexivity. Qed.

Lemma symbols_order (d1 d2 : N) :
  (d1 < 58)%N -> (d2 < 58)%N ->
  N.compare (Byte.to_N (base58.encode_digit alphabets d1))
    (Byte.to_N (base58.encode_digit alphabets d2))
  = N.compare d1 d2.
Proof.
  intros H1 H2. pose proof symbols_order_table as T.
  rewrite forallb_forall in T.
  assert (Hin : forall d, (d < 58)%N -> In d (map N.of_nat (seq 0 58))).
  { intros d Hd. replace d with (N.of_nat (N.to_nat d)) by lia.
    apply in_map, in_seq. lia. }
  specialize (T d1 (Hin d1 H1)). rewrite forallb_forall in T.
  specialize (T d2 (Hin d2 H2)). unfold symbol_order_ok in T.
  destruct (N.compare (Byte.to_N (base58.encode_digit alphabets d1))
              (Byte.to_N (base58.encode_digit alphabets d2)));
    destruct (N.compare d1 d2); (reflexivity || discriminate).
Qed.

Lemma bytes_compare_symbols (ds1 ds2 : list N) :
  Forall (fun d => (d < 58)%N) ds1 -> Forall (fun d => (d < 58)%N) ds2 ->
  bytes_compare (map (base58.encode_digit alphabets) ds1)
    (map (base58.encode_digit alphabets) ds2)
  = digits_compare ds1 ds2.
Proof.
  intros H1. revert ds2. induction H1 as [|d1 ds1 Hd1 _ IH]; intros ds2 H2;
    destruct H2 as [|d2 ds2 Hd2 H2]; cbn [map bytes_compare digits_compare];
    try reflexivity.
  rewrite (symbols_order d1 d2 Hd1 Hd2), (IH ds2 H2). reflexivity.
Qed.

Lemma repeat_add_app {A} (x : A) (n m : nat) :
  repeat x (n + m) = repeat x n ++ repeat x m.
Proof. apply repeat_app. Qed.

(** With fewer leading zero bytes, both the bytes and the text are the
    greater ones. *)
Lemma Encode_order_fewer_zeros (za k : nat) (ra rb : bytes) :
  (forall x r, ra = x :: r -> x <> x00) -> ra <> [] ->
  bytes_compare (repeat x00 za ++ ra) (repeat x00 (za + S k) ++ rb) = Gt
  /\ bytes_compare (base58.EncodeAlphabet (repeat x00 za ++ ra) alphabets)
       (repeat (base58.encode_digit alphabets 0) (za + S k)
          ++ map (base58.encode_digit alphabets)
               (to_digits 58 (of_digits 256 (map Byte.to_N rb)))) = Gt.
Proof.
  intros Hra Hne. destruct ra as [|x r]; [contradiction|].
  assert (Hx : x <> x00) by now apply (Hra x r).
  assert (Hx0 : Byte.to_N x <> 0%N) by (intros H0; now apply to_N_zero in H0).
  split.
  - rewrite repeat_add_app, <- app_assoc, bytes_compare_app_same.
    cbn [repeat app bytes_compare]. change (Byte.to_N x00) with 0%N.
    destruct (N.compare_spec (Byte.to_N x) 0); [contradiction | lia | reflexivity].
  - rewrite (EncodeAlphabet_zeros za (x :: r) Hra).
    rewrite repeat_add_app, <- app_assoc, bytes_compare_app_same.
    set (v := of_digits 256 (map Byte.to_N (x :: r))).
    assert (Hv : v <> 0%N).
    { apply (canonical_nonzero 256 ltac:(lia)); [now apply canonical_bytes | discriminate]. }
    destruct (to_digits_canonical 58 ltac:(lia) v) as [Hf Hh].
    destruct (to_digits 58 v) as [|d ds] eqn:Ed.
    { exfalso. apply Hv. rewrite <- (of_to_digits 58 ltac:(lia) v), Ed. reflexivity. }
    inversion Hf as [|? ? Hd Hf']; subst.
    cbn [map repeat app bytes_compare].
    rewrite (symbols_order d 0 Hd ltac:(lia)).
    pose proof (Hh d ds eq_refl).
    destruct (N.compare_spec d 0); [contradiction | lia | reflexivity].
Qed.

(** For byte strings of one length whose encodings have one length, the
    encodings compare as the byte strings do. *)
Lemma Encode_order (a b : bytes) :
  length a = length b ->
  length (base58.EncodeAlphabet a alphabets) = length (base58.EncodeAlphabet b alphabets) ->
  bytes_compare (base58.EncodeAlphabet a alphabets) (base58.EncodeAlphabet b alphabets)
  = bytes_compare a b.
Proof.
  intros Hl He.
  destruct (count_leading_split x00 a) as (ra & Ea & Hra).
  destruct (count_leading_split x00 b) as (rb & Eb & Hrb).
  set (za := count_leading Byte.eqb x00 a) in *.
  set (zb := count_leading Byte.eqb x00 b) in *.
  assert (Hla : length a = za + length ra)
    by (rewrite Ea at 1; now rewrite length_app, repeat_length).
  assert (Hlb : length b = zb + length rb)
    by (rewrite Eb at 1; now rewrite length_app, repeat_length).
  destruct (lt_eq_lt_dec za zb) as [[Hlt | Heq] | Hgt].
  - assert (Hne : ra <> []) by (intros ->; simpl in Hla; lia).
    replace zb with (za + S (zb - za - 1)) in Eb by lia.
    destruct (Encode_order_fewer_zeros za (zb - za - 1) ra rb Hra Hne) as [H1 H2].
    rewrite Ea at 2. rewrite Eb at 2. rewrite H1.
    rewrite Eb at 1. rewrite (EncodeAlphabet_zeros _ rb Hrb).
    rewrite Ea at 1. exact H2.
  - rewrite Ea at 2. rewrite Eb at 2. rewrite <- Heq, bytes_compare_app_same.
    rewrite Ea, Eb in He. rewrite Ea at 1. rewrite Eb at 1.
    rewrite (EncodeAlphabet_zeros za ra Hra), (EncodeAlphabet_zeros zb rb Hrb) in *.
    rewrite <- Heq in *. rewrite bytes_compare_app_same.
    rewrite !length_app, !length_map in He.
    set (va := of_digits 256 (map Byte.to_N ra)) in *.
    set (vb := of_digits 256 (map Byte.to_N rb)) in *.
    destruct (to_digits_canonical 58 ltac:(lia) va) as [Hfa _].
    destruct (to_digits_canonical 58 ltac:(lia) vb) as [Hfb _].
    rewrite (bytes_compare_symbols _ _ Hfa Hfb).
    rewrite (digits_compare_value 58) by (lia || assumption).
    rewrite !of_to_digits by lia.
    rewrite bytes_compare_digits. unfold va, vb. symmetry.
    apply digits_compare_value; [lia | rewrite !length_map; lia | |];
      apply (canonical_bytes _); assumption.
  - assert (Hne : rb <> []) by (intros ->; simpl in Hlb; lia).
    replace za with (zb + S (za - zb - 1)) in Ea by lia.
    destruct (Encode_order_fewer_zeros zb (za - zb - 1) rb ra Hrb Hne) as [H1 H2].
    rewrite (bytes_compare_antisym b a), (bytes_compare_antisym _ (base58.EncodeAlphabet a alphabets)).
    f_equal.
    rewrite Eb at 2. rewrite Ea at 2. rewrite H1.
    rewrite Ea at 1. rewrite (EncodeAlphabet_zeros _ ra Hra).
    rewrite Eb at 1. exact H2.
Qed.

Lemma Forall_to_N_lt (bs : bytes) : Forall (fun d => (d < 256)%N) (map Byte.to_N bs).
Proof.
  apply Forall_forall. intros d Hd. apply in_map_iff in Hd as (x & <- & _).
  apply to_N_lt.
Qed.

Lemma bytes_compare_value (a b : bytes) :
  length a = length b -> bytes_compare a b = N.compare (be_value a) (be_value b).
Proof.
  intros Hl. rewrite bytes_compare_digits. unfold be_value.
  apply digits_compare_value; [lia | now rewrite !length_map | |]; apply Forall_to_N_lt.
Qed.

Lemma ticks_small (elapsed : Z) :
  (0 <= elapsed < 2 ^ 56 * 100)%Z ->
  (ticks elapsed = elapsed / 100 /\ ticks elapsed mod 2 ^ 56 = elapsed / 100)%Z.
Proof.
  intros He. unfold ticks. rewrite Z.quot_div_nonneg by lia.
  assert (0 <= elapsed / 100 < 2 ^ 56)%Z.
  { split; [apply Z.div_pos; lia | apply Z.div_lt_upper_bound; lia]. }
  rewrite (Z.mod_small (elapsed / 100) (2 ^ 64)) by lia.
  split; [reflexivity | apply Z.mod_small; lia].
Qed.

Lemma payload_order (e1 e2 : Z) (r1 r2 : bytes) :
  (0 <= e1)%Z -> (e1 / 100 < e2 / 100)%Z -> (e2 < 2 ^ 56 * 100)%Z ->
  bytes_compare (payload e1 r1) (payload e2 r2) = Lt.
Proof.
  intros H0 Hlt Hhi.
  assert (He1 : (0 <= e1 < 2 ^ 56 * 100)%Z).
  { split; [lia|]. destruct (Z.lt_ge_cases e1 e2) as [H|H]; [lia|].
    pose proof (Z.div_le_mono e2 e1 100 ltac:(lia) H). lia. }
  assert (He2 : (0 <= e2 < 2 ^ 56 * 100)%Z).
  { split; [|lia]. destruct (Z.lt_ge_cases e2 0) as [H|H]; [|lia].
    pose proof (Z.div_le_mono e2 e1 100 ltac:(lia) ltac:(lia)). lia. }
  rewrite bytes_compare_value by (now rewrite !payload_length).
  apply N.compare_lt_iff.
  destruct (be_value_payload e1 r1) as (R1 & HR1 & Hv1).
  destruct (be_value_payload e2 r2) as (R2 & HR2 & Hv2).
  rewrite (proj2 (ticks_small e1 He1)) in Hv1.
  rewrite (proj2 (ticks_small e2 He2)) in Hv2.
  assert (H96 : Z.of_N (2 ^ 96) = (2 ^ 96)%Z) by reflexivity.
  assert (Z.of_N (be_value (payload e1 r1)) < Z.of_N (be_value (payload e2 r2)))%Z; [|lia].
  rewrite Hv1, Hv2. nia.
Qed.

(** X8: for two identifiers with the same accepted prefix and 19-byte
    payloads, whenever the two texts have the same length they compare as
    the identifiers' bytes do. *)
Theorem String_order (p a b : bytes) :
  validatePrefix p true = None -> length a = 19 -> length b = 19 ->
  exists sa sb,
    String (prefix_part p ++ a) = Returned sa
    /\ String (prefix_part p ++ b) = Returned sb
    /\ (length sa = length sb ->
        bytes_compare sa sb = bytes_compare (prefix_part p ++ a) (prefix_part p ++ b)).
Proof.
  intros Hv Ha Hb. eexists _, _.
  split; [now apply String_payload|]. split; [now apply String_payload|].
  rewrite !length_app, !bytes_compare_app_same. intros Hl.
  apply Encode_order; lia.
Qed.

Lemma String_order_witness :
  validatePrefix (lit "acc") true = None
  /\ length (payload nov_2026 sample_rnd) = 19
  /\ length (payload (nov_2026 + 1000000000) sample_rnd) = 19
  /\ exists sa sb,
       String (prefix_part (lit "acc") ++ payload nov_2026 sample_rnd) = Returned sa
       /\ String (prefix_part (lit "acc") ++ payload (nov_2026 + 1000000000) sample_rnd)
          = Returned sb
       /\ length sa = length sb
       /\ bytes_compare sa sb
          = bytes_compare (prefix_part (lit "acc") ++ payload nov_2026 sample_rnd)
              (prefix_part (lit "acc") ++ payload (nov_2026 + 1000000000) sample_rnd).
Proof.
  split; [reflexivity|]. split; [reflexivity|]. split; [reflexivity|].
  destruct (String_order (lit "acc") (payload nov_2026 sample_rnd)
              (payload (nov_2026 + 1000000000) sample_rnd) eq_refl eq_refl eq_refl)
    as (sa & sb & Ha & Hb & Hc).
  assert (Hl : length sa = length sb).
  { rewrite (String_payload (lit "acc") (payload nov_2026 sample_rnd) eq_refl eq_refl) in Ha.
    rewrite (String_payload (lit "acc") (payload (nov_2026 + 1000000000) sample_rnd)
               eq_refl eq_refl) in Hb.
    injection Ha as <-. injection Hb as <-. vm_compute. reflexivity. }
  exists sa, sb. split; [exact Ha|]. split; [exact Hb|]. split; [exact Hl|].
  exact (Hc Hl).
Defined.

(** X9: two identifiers generated with the same accepted prefix, the second
    in a later 100-nanosecond tick than the first, both from the epoch on
    and before 2^56 ticks: the bytes of the first are below the bytes of the
    second, whatever the random bytes; the text of the first is below the
    text of the second whenever the two texts have the same length, which
    is so when both clock readings are in the steady range and on the same
    side of the width change. *)
Theorem generated_order (p : bytes) (e1 e2 : Z) (r1 r2 : bytes) :
  validatePrefix p true = None ->
  (0 <= e1)%Z -> (e1 / 100 < e2 / 100)%Z -> (e2 < 2 ^ 56 * 100)%Z ->
  exists id1 id2 s1 s2,
    New p e1 r1 = Ok id1 /\ New p e2 r2 = Ok id2
    /\ String id1 = Returned s1 /\ String id2 = Returned s2
    /\ bytes_compare id1 id2 = Lt
    /\ (length s1 = length s2 -> bytes_compare s1 s2 = Lt)
    /\ (steady e1 ->
        (ticks e2 < width_change)%Z \/ (width_change < ticks e1)%Z ->
        bytes_compare s1 s2 = Lt).
Proof.
  intros Hv H0 Hlt Hhi.
  pose proof (payload_order e1 e2 r1 r2 H0 Hlt Hhi) as Hord.
  pose proof (payload_length e1 r1) as Hl1. pose proof (payload_length e2 r2) as Hl2.
  exists (prefix_part p ++ payload e1 r1), (prefix_part p ++ payload e2 r2).
  eexists _, _.
  split; [now apply newID_shape|]. split; [now apply newID_shape|].
  split; [now apply String_payload|]. split; [now apply String_payload|].
  split; [now rewrite bytes_compare_app_same|].
  assert (Hsame : length (base58.EncodeAlphabet (payload e1 r1) alphabets)
                  = length (base58.EncodeAlphabet (payload e2 r2) alphabets) ->
                  bytes_compare
                    (prefix_part p ++ base58.EncodeAlphabet (payload e1 r1) alphabets)
                    (prefix_part p ++ base58.EncodeAlphabet (payload e2 r2) alphabets) = Lt).
  { intros Hl. rewrite bytes_compare_app_same, Encode_order; [exact Hord | lia | exact Hl]. }
  split.
  - rewrite !length_app. intros Hl. apply Hsame. lia.
  - intros Hs1 Hw. apply Hsame.
    assert (Hs2 : steady e2).
    { unfold steady in *. split; [|lia].
      destruct (Z.lt_ge_cases e2 e1) as [H|H]; [|lia].
      pose proof (Z.div_le_mono e2 e1 100 ltac:(lia) ltac:(lia)). lia. }
    destruct (steady_ticks e1 Hs1) as [Et1 _]. destruct (steady_ticks e2 Hs2) as [Et2 _].
    destruct (Encode_steady_width e1 r1 Hs1) as [Ha1 Hb1].
    destruct (Encode_steady_width e2 r2 Hs2) as [Ha2 Hb2].
    destruct Hw as [Hw|Hw].
    + rewrite Ha1, Ha2 by lia. reflexivity.
    + rewrite Hb1, Hb2 by lia. reflexivity.
Qed.

Lemma generated_order_witness :
  validatePrefix (lit "acc") true = None
  /\ (0 <= ten_minutes)%Z /\ (ten_minutes / 100 < nov_2026 / 100)%Z
  /\ (nov_2026 < 2 ^ 56 * 100)%Z
  /\ exists id1 id2,
       New (lit "acc") ten_minutes sample_rnd = Ok id1
       /\ New (lit "acc") nov_2026 sample_rnd = Ok id2
       /\ bytes_compare id1 id2 = Lt.
Proof.
  assert (H0 : (0 <= ten_minutes)%Z) by (unfold ten_minutes; lia).
  assert (H1 : (ten_minutes / 100 < nov_2026 / 100)%Z) by reflexivity.
  assert (H2 : (nov_2026 < 2 ^ 56 * 100)%Z) by reflexivity.
  split; [reflexivity|]. split; [exact H0|]. split; [exact H1|]. split; [exact H2|].
  destruct (generated_order (lit "acc") ten_minutes nov_2026 sample_rnd sample_rnd
              eq_refl H0 H1 H2) as (id1 & id2 & s1 & s2 & Hn1 & Hn2 & _ & _ & Hc & _).
  exists id1, id2. auto.
Defined.

(** ** Binary marshalling and scanning *)

(** X10: [UnmarshalBinary] of fewer than 19 bytes returns the bytes-size
    error and sets the receiver to nil; of 19 bytes or more it sets the
    receiver to those bytes.  So the [MarshalBinary] of every generated
    identifier, prefixed or not, is read back by [UnmarshalBinary]. *)
Theorem binary_round_trip (p : bytes) (elapsed : Z) (rnd : bytes) (t b : ID) :
  (length b < 19 -> UnmarshalBinary t b = ([], Some errBytesSizeMismatch))
  /\ (19 <= length b -> UnmarshalBinary t b = (b, None))
  /\ (validatePrefix p true = None ->
      exists id,
        New p elapsed rnd = Ok id
        /\ MarshalBinary id = Ok id
        /\ UnmarshalBinary t id = (id, None)).
Proof.
  split; [|split].
  - intros H. unfold UnmarshalBinary. now rewrite (FromBytes_err b H).
  - intros H. unfold UnmarshalBinary. now rewrite (FromBytes_ok b H).
  - intros Hv. exists (prefix_part p ++ payload elapsed rnd).
    split; [now apply newID_shape|]. split; [reflexivity|].
    unfold UnmarshalBinary. rewrite FromBytes_ok; [reflexivity|].
    rewrite length_app, payload_length. lia.
Qed.

Lemma binary_round_trip_witness :
  length (lit "0123456789abcdefgh") < 19
  /\ UnmarshalBinary (lit "old") (lit "0123456789abcdefgh")
     = ([], Some errBytesSizeMismatch).
Proof.
  assert (H : length (lit "0123456789abcdefgh") < 19) by (simpl; lia).
  split; [exact H|].
  apply (binary_round_trip [] 0 [] (lit "old") (lit "0123456789abcdefgh")). exact H.
Defined.

Lemma scan_binary (t b : ID) :
  length b = 19 \/ length b = 22 -> scan t b = UnmarshalBinary t b.
Proof.
  unfold scan, byteLength, timeBytesLen, randomBytesLen, prefixAllowedLen.
  intros [-> | ->]; reflexivity.
Qed.

Lemma scan_text (t b : ID) :
  length b = 25 \/ length b = 28 -> scan t b = UnmarshalText t b.
Proof.
  unfold scan, byteLength, timeBytesLen, randomBytesLen, prefixAllowedLen, stringEncodedLen.
  intros [-> | ->]; reflexivity.
Qed.

(** X11: for an identifier generated without prefix, [Scan] of its bytes
    gives the identifier.  [Scan] of its text gives the identifier when the
    text has 25 characters, which is the case in the steady range before
    the width change; it takes a text of 19 or 22 characters for binary and
    stores the characters themselves; for every other length, 26 included,
    which is the case in the steady range after the width change, it
    returns the bytes-size error and leaves the receiver as it is. *)
Theorem Scan_unprefixed (elapsed : Z) (rnd : bytes) (t : ID) :
  exists id s,
    New [] elapsed rnd = Ok id
    /\ String id = Returned s
    /\ Scan t (SrcBytes id) = (id, None)
    /\ (length s = 25 -> Scan t (SrcString s) = (id, None))
    /\ (length s = 19 \/ length s = 22 -> Scan t (SrcString s) = (s, None))
    /\ (length s <> 19 -> length s <> 22 -> length s <> 25 ->
        Scan t (SrcString s) = (t, Some errBytesSizeMismatch))
    /\ (steady elapsed -> (ticks elapsed < width_change)%Z ->
        Scan t (SrcString s) = (id, None))
    /\ (steady elapsed -> (width_change < ticks elapsed)%Z ->
        Scan t (SrcString s) = (t, Some errBytesSizeMismatch)).
Proof.
  pose proof (payload_length elapsed rnd) as Hpl.
  pose proof (Encode_payload_length _ Hpl) as Hlen.
  set (s := base58.EncodeAlphabet (payload elapsed rnd) alphabets) in *.
  assert (Hnew : newID [] elapsed rnd = Ok (payload elapsed rnd))
    by (apply (newID_shape [] elapsed rnd eq_refl)).
  assert (H25 : length s = 25 -> Scan t (SrcString s) = (payload elapsed rnd, None)).
  { intros Hl. cbn [Scan]. rewrite scan_text by auto. unfold UnmarshalText.
    destruct (Parse_String_generated [] elapsed rnd _ Hnew) as (s' & Hs' & Hp);
      [fold s; lia|].
    rewrite (String_short (payload elapsed rnd)) in Hs' by lia. injection Hs' as <-.
    fold s in Hp. now rewrite Hp. }
  assert (Hother : length s <> 19 -> length s <> 22 -> length s <> 25 ->
                   Scan t (SrcString s) = (t, Some errBytesSizeMismatch)).
  { intros H19 H22 H25'. cbn [Scan]. apply scan_other_length. cbn [In]. lia. }
  exists (payload elapsed rnd), s.
  split; [exact Hnew|]. split; [apply String_short; lia|]. split.
  { cbn [Scan]. rewrite scan_binary by auto. unfold UnmarshalBinary.
    now rewrite FromBytes_ok by lia. }
  split; [exact H25|]. split.
  { intros Hl. cbn [Scan]. rewrite scan_binary by exact Hl. unfold UnmarshalBinary.
    now rewrite FromBytes_ok by lia. }
  split; [exact Hother|]. split.
  - intros Hs Hw. apply H25. now apply (Encode_steady_width elapsed rnd Hs).
  - intros Hs Hw. pose proof (proj2 (Encode_steady_width elapsed rnd Hs) Hw) as H26.
    fold s in H26. apply Hother; lia.
Qed.

Lemma Scan_unprefixed_witness :
  steady dec_2026 /\ (width_change < ticks dec_2026)%Z
  /\ exists s,
       Generate dec_2026 sample_rnd = Returned s
       /\ Scan (lit "old") (SrcString s) = (lit "old", Some errBytesSizeMismatch).
Proof.
  assert (Hs : steady dec_2026) by (unfold steady, dec_2026; lia).
  assert (Hw : (width_change < ticks dec_2026)%Z) by reflexivity.
  split; [exact Hs|]. split; [exact Hw|].
  destruct (Scan_unprefixed dec_2026 sample_rnd (lit "old"))
    as (id & s & Hn & Hst & _ & _ & _ & _ & _ & H26).
  exists s. split; [|now apply H26].
  unfold Generate, GenerateWithPrefix.
  change (TrimSuffix (lit "") separator) with (@nil byte). now rewrite Hn.
Defined.

(** X12: [Scan] never reads the text of an identifier generated with a
    non-empty prefix: that text has 23 to 30 characters, those of 25 and of
    28 characters carry a payload text shorter than 25 and fail in [Parse]
    with the string-size error, and every other length is the bytes-size
    error; the receiver is left as it is. *)
Theorem Scan_prefixed_text_fails (p : bytes) (elapsed : Z) (rnd : bytes) :
  validatePrefix p true = None -> p <> [] ->
  exists id s,
    New p elapsed rnd = Ok id
    /\ String id = Returned s
    /\ 23 <= length s <= 30
    /\ forall t src, source_bytes src = Some s ->
         (length s = 25 \/ length s = 28 ->
          Scan t src = (t, Some errStringSizeMismatch))
         /\ (length s <> 25 -> length s <> 28 ->
             Scan t src = (t, Some errBytesSizeMismatch))
         /\ (Scan t src = (t, Some errStringSizeMismatch)
             \/ Scan t src = (t, Some errBytesSizeMismatch)).
Proof.
  intros Hv Hne.
  pose proof (payload_length elapsed rnd) as Hpl.
  pose proof (Encode_payload_length _ Hpl) as Hlen.
  destruct (prefix_part_cases p Hv) as [[-> _] | (Hl & Hn & Epp)]; [contradiction|].
  set (e := base58.EncodeAlphabet (payload elapsed rnd) alphabets) in *.
  exists (prefix_part p ++ payload elapsed rnd), (prefix_part p ++ e).
  assert (Hs : length (prefix_part p ++ e) = 4 + length e).
  { rewrite Epp, !length_app, Hl. reflexivity. }
  split; [now apply newID_shape|]. split; [now apply String_payload|].
  split; [lia|]. intros t src Hsrc.
  rewrite (Scan_source_bytes t src _ Hsrc).
  assert (Htext : length (prefix_part p ++ e) = 25 \/ length (prefix_part p ++ e) = 28 ->
                  scan t (prefix_part p ++ e) = (t, Some errStringSizeMismatch)).
  { intros H. rewrite scan_text by exact H. unfold UnmarshalText.
    rewrite Epp, <- app_assoc, (Parse_separated p e Hn).
    assert (Hp : parseInternal (p ++ separator) e = Err errStringSizeMismatch)
      by (apply parseInternal_size; lia).
    now rewrite Hp. }
  assert (Hother : length (prefix_part p ++ e) <> 25 -> length (prefix_part p ++ e) <> 28 ->
                   scan t (prefix_part p ++ e) = (t, Some errBytesSizeMismatch)).
  { intros H25 H28. apply scan_other_length. cbn [In]. lia. }
  split; [exact Htext|]. split; [exact Hother|].
  destruct (Nat.eq_dec (length (prefix_part p ++ e)) 25) as [H|H]; [left; auto|].
  destruct (Nat.eq_dec (length (prefix_part p ++ e)) 28) as [H'|H']; [left; auto|].
  right. now apply Hother.
Qed.

Lemma Scan_prefixed_text_fails_witness :
  validatePrefix (lit "acc") true = None /\ lit "acc" <> []
  /\ exists id s,
       New (lit "acc") nov_2026 sample_rnd = Ok id
       /\ String id = Returned s /\ 23 <= length s <= 30.
Proof.
  split; [reflexivity|]. split; [discriminate|].
  destruct (Scan_prefixed_text_fails (lit "acc") nov_2026 sample_rnd eq_refl)
    as (id & s & Hn & Hs & Hl & _); [discriminate|].
  exists id, s. auto.
Defined.


(** ** From an accepted text back to the text *)

Lemma decode_digits_app_inv (s1 s2 : bytes) (ds : list N) :
  base58.decode_digits alphabets (s1 ++ s2) = Some ds ->
  exists d1 d2,
    base58.decode_digits alphabets s1 = Some d1
    /\ base58.decode_digits alphabets s2 = Some d2 /\ ds = d1 ++ d2.
Proof.
  revert ds. induction s1 as [|c s1 IH]; intros ds H.
  - exists [], ds. auto.
  - cbn [app base58.decode_digits] in *.
    destruct (base58.decode_digit alphabets c) as [d|]; [|discriminate].
    destruct (base58.decode_digits alphabets (s1 ++ s2)) as [ds'|] eqn:E; [|discriminate].
    injection H as <-. destruct (IH ds' eq_refl) as (d1 & d2 & H1 & H2 & ->).
    exists (d :: d1), d2. rewrite H1. auto.
Qed.

Lemma decode_digits_symbols (s : bytes) (ds : list N) :
  base58.decode_digits alphabets s = Some ds ->
  map (base58.encode_digit alphabets) ds = s
  /\ Forall (fun d => (d < 58)%N) ds /\ length ds = length s.
Proof.
  revert ds. induction s as [|c s IH]; intros ds H.
  - injection H as <-. repeat split. constructor.
  - cbn [base58.decode_digits] in H.
    destruct (base58.decode_digit alphabets c) as [d|] eqn:Ed; [|discriminate].
    destruct (base58.decode_digits alphabets s) as [ds'|]; [|discriminate].
    injection H as <-. destruct (IH ds' eq_refl) as (Hm & Hf & Hl).
    destruct (decode_digit_lt c d Ed) as [Hd Hc].
    cbn [map length]. rewrite Hm, Hc, Hl. repeat split. now constructor.
Qed.

Lemma map_to_N_byte_of_N (ds : list N) :
  Forall (fun d => (d < 256)%N) ds -> map Byte.to_N (map byte_of_N ds) = ds.
Proof.
  induction 1 as [|d ds Hd _ IH]; [reflexivity|].
  cbn [map]. rewrite to_N_byte_of_N, N.mod_small, IH by exact Hd. reflexivity.
Qed.

(** The parts of a decoded text: the leading first symbols, the digits after
    them, and the bytes returned. *)
Lemma Decode_shape (text bs : bytes) :
  base58.DecodeAlphabet text alphabets = Some bs ->
  exists k rest dr,
    text = repeat (base58.encode_digit alphabets 0) k ++ rest
    /\ map (base58.encode_digit alphabets) dr = rest
    /\ length dr = length rest
    /\ canonical 58 dr
    /\ bs = repeat x00 k ++ map byte_of_N (to_digits 256 (of_digits 58 dr)).
Proof.
  intros H. unfold base58.DecodeAlphabet in H.
  assert (Hd : exists ds,
             base58.decode_digits alphabets text = Some ds
             /\ bs = repeat x00 (count_leading Byte.eqb (base58.encode_digit alphabets 0) text)
                      ++ map byte_of_N (to_digits 256 (of_digits 58 ds))).
  { destruct text as [|c text']; [discriminate|].
    destruct (base58.decode_digits alphabets (c :: text')) as [ds|]; [|discriminate].
    injection H as <-. now exists ds. }
  clear H. destruct Hd as (ds & Hds & ->).
  destruct (count_leading_split (base58.encode_digit alphabets 0) text) as (rest & E & Hr).
  set (k := count_leading Byte.eqb (base58.encode_digit alphabets 0) text) in *.
  rewrite E in Hds. destruct (decode_digits_app_inv _ _ _ Hds) as (d1 & dr & H1 & H2 & ->).
  rewrite decode_digits_repeat_first in H1. injection H1 as <-.
  destruct (decode_digits_symbols rest dr H2) as (Hm & Hf & Hl).
  exists k, rest, dr. split; [exact E|]. split; [exact Hm|]. split; [exact Hl|].
  split; [|now rewrite of_digits_zeros].
  split; [exact Hf|]. intros d ds' -> H0. subst d.
  cbn [map] in Hm. now apply (Hr _ _ (eq_sym Hm)).
Qed.

(** Encoding undoes decoding. *)
Lemma Encode_Decode (text bs : bytes) :
  base58.DecodeAlphabet text alphabets = Some bs ->
  base58.EncodeAlphabet bs alphabets = text.
Proof.
  intros H. destruct (Decode_shape text bs H) as (k & rest & dr & -> & Hm & _ & Hc & ->).
  set (v := of_digits 58 dr).
  destruct (to_digits_canonical 256 ltac:(lia) v) as [Hf Hh].
  rewrite EncodeAlphabet_zeros.
  - rewrite (map_to_N_byte_of_N _ Hf), (of_to_digits 256) by lia.
    unfold v. rewrite (to_of_digits 58 ltac:(lia) dr Hc). now rewrite Hm.
  - intros x r E Hx. destruct (to_digits 256 v) as [|d ds] eqn:Ed; [discriminate|].
    cbn [map] in E. injection E as <- _.
    inversion Hf as [|? ? Hd _]; subst.
    assert (H0 : Byte.to_N (byte_of_N d) = 0%N) by now rewrite Hx.
    rewrite to_N_byte_of_N, N.mod_small in H0 by exact Hd.
    now apply (Hh d ds).
Qed.

Lemma decode_widths_ok : forallb decode_width_ok (seq 0 16) = true.
Proof. vm_compute. reflexivity. Qed.

(** A text of at least 25 symbols decodes to at least 16 bytes. *)
Lemma Decode_length_ge (text bs : bytes) :
  base58.DecodeAlphabet text alphabets = Some bs ->
  25 <= length text -> 16 <= length bs.
Proof.
  intros H Hl. destruct (Decode_shape text bs H) as (k & rest & dr & -> & _ & Hdr & Hc & ->).
  rewrite !length_app, !repeat_length, length_map in *.
  destruct (Nat.le_gt_cases 16 k) as [Hk|Hk]; [lia|].
  assert (15 - k < length (to_digits 256 (of_digits 58 dr))); [|lia].
  apply (to_digits_length_gt 256 ltac:(lia)).
  pose proof decode_widths_ok as T. rewrite forallb_forall in T.
  assert (Hin : In k (seq 0 16)) by (apply in_seq; lia).
  apply T, N.leb_le in Hin.
  destruct dr as [|d dr']; [simpl in Hdr; lia|].
  destruct Hc as [_ Hh].
  pose proof (of_digits_ge 58 ltac:(lia) d dr' (Hh d dr' eq_refl)) as Hge.
  assert (58 ^ N.of_nat (24 - k) <= 58 ^ N.of_nat (length dr'))%N.
  { apply N.pow_le_mono_r; [lia|]. cbn [length] in Hdr. lia. }
  lia.
Qed.

Lemma parseInternal_Ok (p r : bytes) (id : ID) :
  parseInternal p r = Ok id ->
  25 <= length r /\ validatePrefix p false = None
  /\ exists bs, base58.DecodeAlphabet r alphabets = Some bs
                /\ id = p ++ bs /\ 19 <= length id.
Proof.
  unfold parseInternal, stringEncodedLen.
  destruct (Nat.ltb_spec (length r) 25) as [Hr|Hr]; [discriminate|].
  destruct (validatePrefix p false) as [e|]; [discriminate|].
  destruct (base58.DecodeAlphabet r alphabets) as [bs|]; [|discriminate].
  destruct (Nat.lt_ge_cases (length (p ++ bs)) 19) as [Hb|Hb].
  - rewrite (FromBytes_err _ Hb). discriminate.
  - rewrite (FromBytes_ok _ Hb). intros [= <-]. repeat split; auto. now exists bs.
Qed.

(** X13: an accepted text is the text of the identifier it parses to.  When
    [Parse] succeeds on a text with a separator and the identifier has more
    than 19 bytes, as it always has when three characters precede the
    separator, [String] of the identifier is the text again; so it is for a
    text without separator that decodes to exactly 19 bytes. *)
Theorem String_Parse (text : bytes) (id : ID) :
  Parse text = Ok id ->
  (forall i, Index text separator = Some i -> 19 < length id ->
             String id = Returned text)
  /\ (Index text separator = Some 3 -> String id = Returned text)
  /\ (Index text separator = None -> length id = 19 -> String id = Returned text).
Proof.
  intros HP.
  assert (Hsep : forall i, Index text separator = Some i ->
             exists p r bs,
               text = p ++ separator ++ r /\ ~ In "-"%byte p /\ length p = i
               /\ 25 <= length r
               /\ base58.DecodeAlphabet r alphabets = Some bs
               /\ id = p ++ separator ++ bs).
  { intros i Hi. destruct (Parse_cut text i Hi) as (p & r & Ht & Hn & _ & _ & HP').
    rewrite HP' in HP. destruct (parseInternal_Ok _ _ _ HP) as (Hr & _ & bs & Hd & -> & _).
    exists p, r, bs. repeat split; auto; [|now rewrite app_assoc].
    change separator with ["-"%byte] in *. subst text. cbn [app] in Hi.
    rewrite (Index_single_app _ p r Hn) in Hi. now injection Hi. }
  assert (Hlong : forall i, Index text separator = Some i -> 19 < length id ->
                            String id = Returned text).
  { intros i Hi Hl. destruct (Hsep i Hi) as (p & r & bs & -> & Hn & _ & _ & Hd & ->).
    rewrite (String_long p bs Hn Hl). now rewrite (Encode_Decode r bs Hd). }
  split; [exact Hlong|]. split.
  - intros Hi. apply (Hlong 3 Hi).
    destruct (Hsep 3 Hi) as (p & r & bs & _ & _ & Hp & Hr & Hd & ->).
    pose proof (Decode_length_ge r bs Hd Hr).
    rewrite !length_app, Hp. simpl. lia.
  - intros Hi Hl. unfold Parse in HP. rewrite Hi in HP.
    destruct (stringEncodedLen <=? length text); [|discriminate].
    destruct (parseInternal_Ok _ _ _ HP) as (_ & _ & bs & Hd & -> & _).
    change (lit "" ++ bs) with bs in *.
    rewrite String_short by lia. now rewrite (Encode_Decode text bs Hd).
Qed.

Lemma String_Parse_witness :
  Parse (lit "acc-21WEdFvVpKrBCuRWxseMsafU3D")
  = Ok (lit "acc-" ++ payload dec_2026 sample_rnd)
  /\ Index (lit "acc-21WEdFvVpKrBCuRWxseMsafU3D") separator = Some 3
  /\ String (lit "acc-" ++ payload dec_2026 sample_rnd)
     = Returned (lit "acc-21WEdFvVpKrBCuRWxseMsafU3D").
Proof.
  assert (HP : Parse (lit "acc-21WEdFvVpKrBCuRWxseMsafU3D")
               = Ok (lit "acc-" ++ payload dec_2026 sample_rnd))
    by (vm_compute; reflexivity).
  split; [exact HP|]. split; [reflexivity|].
  apply (proj1 (proj2 (String_Parse _ _ HP))). reflexivity.
Defined.


(** ** The example program *)

Lemma steady_text_order (e1 e2 : Z) (r1 r2 : bytes) :
  steady e1 -> steady e2 -> (ticks e1 < ticks e2)%Z ->
  (ticks e2 < width_change)%Z \/ (width_change < ticks e1)%Z ->
  bytes_compare (round_text (e1, r1)) (round_text (e2, r2)) = Lt.
Proof.
  intros Hs1 Hs2 Hlt Hw. unfold round_text. cbn [fst snd].
  destruct (steady_ticks e1 Hs1) as [Et1 _]. destruct (steady_ticks e2 Hs2) as [Et2 _].
  rewrite bytes_compare_app_same, Encode_order.
  - unfold steady in *. apply payload_order; lia.
  - now rewrite !payload_length.
  - destruct (Encode_steady_width e1 r1 Hs1) as [Ha1 Hb1].
    destruct (Encode_steady_width e2 r2 Hs2) as [Ha2 Hb2].
    destruct Hw as [Hw|Hw]; [rewrite Ha1, Ha2 by lia | rewrite Hb1, Hb2 by lia];
      reflexivity.
Qed.

Lemma round_ok (e : Z) (r : bytes) :
  steady e ->
  GenerateWithPrefix (lit "acc") e r = Returned (round_text (e, r))
  /\ Parse (round_text (e, r)) = Ok (lit "acc-" ++ payload e r)
  /\ String (lit "acc-" ++ payload e r) = Returned (round_text (e, r)).
Proof.
  intros Hs.
  assert (Hv : validatePrefix (lit "acc") true = None) by reflexivity.
  pose proof (String_payload (lit "acc") (payload e r) Hv (payload_length e r)) as HS.
  change (prefix_part (lit "acc")) with (lit "acc-") in HS.
  pose proof (Encode_steady_length e r Hs) as [H25 _].
  destruct (Parse_String_generated (lit "acc") e r _ (newID_shape _ _ _ Hv) H25)
    as (s & Hs' & Hp).
  change (prefix_part (lit "acc")) with (lit "acc-") in *.
  rewrite HS in Hs'. injection Hs' as <-.
  split; [|split; [exact Hp | exact HS]].
  unfold GenerateWithPrefix, New.
  change (TrimSuffix (lit "acc") separator) with (lit "acc").
  rewrite (newID_shape _ _ _ Hv). exact HS.
Qed.

Lemma example_collect_ok (env : nat -> Z * bytes) (n : nat) :
  forall i ids srt,
    (forall j, i <= j < i + n -> steady (fst (env j))) ->
    example_collect env i n ids srt
    = Returned (ids ++ map (fun j => round_text (env j)) (seq i n),
                srt ++ map (fun j => round_text (env j)) (seq i n)).
Proof.
  induction n as [|n IH]; intros i ids srt Hs.
  - cbn [example_collect seq map]. now rewrite !app_nil_r.
  - cbn [example_collect seq map].
    destruct (round_ok (fst (env i)) (snd (env i)) (Hs i ltac:(lia))) as (Hg & Hp & HS).
    rewrite <- surjective_pairing in *. rewrite Hg, Hp, HS.
    rewrite IH by (intros j Hj; apply Hs; lia).
    now rewrite <- !app_assoc.
Qed.

Lemma insert_string_first (x : bytes) (l : list bytes) :
  Forall (fun y => bytes_compare x y = Lt) l -> insert_string x l = x :: l.
Proof.
  intros H. destruct H as [|y l Hy _]; [reflexivity|].
  cbn [insert_string]. now rewrite Hy.
Qed.

Lemma sort_strings_increasing (l : list bytes) :
  StronglySorted (fun a b => bytes_compare a b = Lt) l -> sort_strings l = l.
Proof.
  induction 1 as [|x l _ IH Hx]; [reflexivity|].
  cbn [sort_strings]. rewrite IH. now apply insert_string_first.
Qed.

Lemma insert_string_length (x : bytes) (l : list bytes) :
  length (insert_string x l) = S (length l).
Proof.
  induction l as [|y l IH]; [reflexivity|].
  cbn [insert_string]. destruct (bytes_compare x y); cbn [length]; congruence.
Qed.

Lemma sort_strings_length (l : list bytes) : length (sort_strings l) = length l.
Proof.
  induction l as [|x l IH]; [reflexivity|].
  cbn [sort_strings]. now rewrite insert_string_length, IH.
Qed.

Lemma insert_string_perm (x : bytes) (l : list bytes) :
  Permutation (x :: l) (insert_string x l).
Proof.
  induction l as [|y l IH]; [apply Permutation_refl|].
  cbn [insert_string]. destruct (bytes_compare x y); try apply Permutation_refl.
  eapply perm_trans; [apply perm_swap|]. now apply perm_skip.
Qed.

(** The model of [sort.Strings] returns its argument rearranged, each
    string not above the next. *)
Lemma sort_strings_perm (l : list bytes) : Permutation l (sort_strings l).
Proof.
  induction l as [|x l IH]; [apply Permutation_refl|].
  cbn [sort_strings]. eapply perm_trans; [|apply insert_string_perm].
  now apply perm_skip.
Qed.

Lemma insert_string_sorted (x : bytes) (l : list bytes) :
  Sorted bytes_le l -> Sorted bytes_le (insert_string x l).
Proof.
  induction 1 as [|y l Hs IH Hh]; [repeat constructor|].
  cbn [insert_string]. destruct (bytes_compare x y) eqn:E.
  - constructor; [now constructor|]. constructor. unfold bytes_le. now rewrite E.
  - constructor; [now constructor|]. constructor. unfold bytes_le. now rewrite E.
  - constructor; [exact IH|].
    assert (Hyx : bytes_le y x).
    { unfold bytes_le. rewrite (bytes_compare_antisym x y), E. discriminate. }
    destruct l as [|z l]; [now constructor|].
    cbn [insert_string]. inversion Hh; subst.
    destruct (bytes_compare x z); now constructor.
Qed.

Lemma sort_strings_sorted (l : list bytes) : Sorted bytes_le (sort_strings l).
Proof.
  induction l as [|x l IH]; [constructor|].
  cbn [sort_strings]. now apply insert_string_sorted.
Qed.

Lemma example_check_pass (ids : list bytes) :
  forall rest pre out,
    ids = pre ++ rest ->
    example_check ids rest (length pre) out
    = (out ++ map (fun s => example_line s s) rest, Returned tt).
Proof.
  induction rest as [|x rest IH]; intros pre out E.
  - cbn [example_check map]. now rewrite app_nil_r.
  - cbn [example_check map].
    assert (Hn : nth_error ids (length pre) = Some x).
    { rewrite E, nth_error_app2, Nat.sub_diag by lia. reflexivity. }
    rewrite Hn. destruct (list_eq_dec Byte.byte_eq_dec x x) as [_|N]; [|contradiction].
    specialize (IH (pre ++ [x]) (out ++ [example_line x x])).
    rewrite length_app, Nat.add_1_r in IH. rewrite IH by (now rewrite <- app_assoc).
    now rewrite <- app_assoc.
Qed.

Lemma example_check_normal (ids : list bytes) :
  forall rest pre out,
    length ids = length pre + length rest ->
    firstn (length pre) ids = pre ->
    snd (example_check ids rest (length pre) out) = Returned tt ->
    ids = pre ++ rest.
Proof.
  induction rest as [|x rest IH]; intros pre out Hl Hp H.
  - rewrite app_nil_r, <- Hp. symmetry. apply firstn_all2. simpl in Hl. lia.
  - cbn [example_check] in H.
    destruct (nth_error ids (length pre)) as [y|] eqn:Hn; [|discriminate].
    destruct (list_eq_dec Byte.byte_eq_dec y x) as [->|N]; [|discriminate].
    assert (Hp' : firstn (length (pre ++ [x])) ids = pre ++ [x]).
    { rewrite length_app, Nat.add_1_r.
      rewrite <- (firstn_skipn (length pre) ids) at 1.
      rewrite Hp. rewrite <- (firstn_skipn (length pre) ids) in Hn.
      rewrite Hp, nth_error_app2, Nat.sub_diag in Hn by lia.
      destruct (skipn (length pre) ids) as [|z tl]; [discriminate|].
      injection Hn as ->.
      replace (S (length pre)) with (length (pre ++ [x]))
        by (rewrite length_app; simpl; lia).
      change (pre ++ x :: tl) with (pre ++ [x] ++ tl). rewrite app_assoc.
      apply firstn_length_app. }
    specialize (IH (pre ++ [x]) (out ++ [example_line x x])).
    rewrite length_app, Nat.add_1_r in IH, Hp'.
    change (pre ++ x :: rest) with (pre ++ [x] ++ rest). rewrite app_assoc.
    apply IH; [simpl in Hl; lia | exact Hp' | exact H].
Qed.

Lemma StronglySorted_map_seq {A} (R : A -> A -> Prop) (f : nat -> A) (n : nat) :
  forall i,
    (forall a b, i <= a -> a < b -> b < i + n -> R (f a) (f b)) ->
    StronglySorted R (map f (seq i n)).
Proof.
  induction n as [|n IH]; intros i H; [constructor|].
  cbn [seq map]. constructor.
  - apply IH. intros a b Ha Hab Hb. apply H; lia.
  - apply Forall_forall. intros y Hy. apply in_map_iff in Hy as (b & <- & Hb).
    apply in_seq in Hb. apply H; lia.
Qed.

(** X14: [exampleTwo] with every clock reading in the steady range: all 100
    generated texts parse, and the run ends normally exactly when the texts
    came out in sorted order, printing one line for each; otherwise it
    panics.  It ends normally when the tick counts increase from round to
    round and all lie on one side of the width change. *)
Theorem exampleTwo_outcome (env : nat -> Z * bytes) :
  (forall i, i < 100 -> steady (fst (env i))) ->
  let texts := map (fun i => round_text (env i)) (seq 0 100) in
  (snd (exampleTwo env) = Returned tt <-> sort_strings texts = texts)
  /\ (snd (exampleTwo env) = Panicked <-> sort_strings texts <> texts)
  /\ (sort_strings texts = texts ->
      exampleTwo env = (map (fun s => example_line s s) texts, Returned tt))
  /\ ((forall i j, i < j -> j < 100 ->
         (ticks (fst (env i)) < ticks (fst (env j)))%Z) ->
      (forall i, i < 100 -> (ticks (fst (env i)) < width_change)%Z)
      \/ (forall i, i < 100 -> (width_change < ticks (fst (env i)))%Z) ->
      exampleTwo env = (map (fun s => example_line s s) texts, Returned tt)).
Proof.
  intros Hs texts.
  assert (E : exampleTwo env = example_check texts (sort_strings texts) 0 []).
  { unfold exampleTwo. rewrite example_collect_ok by (intros j Hj; apply Hs; lia).
    reflexivity. }
  assert (Hpass : sort_strings texts = texts ->
                  exampleTwo env = (map (fun s => example_line s s) texts, Returned tt)).
  { intros Hsorted. rewrite E, Hsorted.
    apply (example_check_pass texts texts [] []). reflexivity. }
  assert (Hiff : snd (exampleTwo env) = Returned tt <-> sort_strings texts = texts).
  { split.
    - intros H. rewrite E in H. symmetry.
      apply (example_check_normal texts (sort_strings texts) [] []);
        [now rewrite sort_strings_length | reflexivity | exact H].
    - intros H. now rewrite (Hpass H). }
  split; [exact Hiff|]. split; [|split; [exact Hpass|]].
  - destruct (snd (exampleTwo env)) as [[]|] eqn:Eo.
    + split; [discriminate|]. intros H. exfalso. apply H. now apply Hiff.
    + split; [|reflexivity]. intros _ H. apply Hiff in H. discriminate.
  - intros Hinc Hside. apply Hpass. apply sort_strings_increasing.
    apply StronglySorted_map_seq. intros a b _ Hab Hb.
    rewrite (surjective_pairing (env a)), (surjective_pairing (env b)).
    apply steady_text_order; try (apply Hs; lia); [apply Hinc; lia|].
    destruct Hside as [H|H]; [left | right]; apply H; lia.
Qed.

Lemma exampleTwo_outcome_witness :
  (forall i, i < 100 -> steady (fst (every_second nov_2026 i)))
  /\ snd (exampleTwo (every_second nov_2026)) = Returned tt.
Proof.
  assert (Hs : forall i, i < 100 -> steady (fst (every_second nov_2026 i))).
  { intros i Hi. unfold every_second, steady, nov_2026. cbn [fst]. lia. }
  split; [exact Hs|].
  destruct (exampleTwo_outcome (every_second nov_2026) Hs) as (_ & _ & _ & H).
  rewrite H; [reflexivity | |].
  - intros i j Hij Hj.
    destruct (steady_ticks _ (Hs i ltac:(lia))) as [-> _].
    destruct (steady_ticks _ (Hs j Hj)) as [-> _].
    unfold every_second, nov_2026. cbn [fst].
    apply Z.div_lt_upper_bound; [lia|].
    assert (H1 := Z.mul_div_le (152496000000000000 + Z.of_nat j * 1000000000) 100 ltac:(lia)).
    assert (H2 := Z.mod_pos_bound (152496000000000000 + Z.of_nat i * 1000000000) 100 ltac:(lia)).
    assert (H3 := Z.div_mod (152496000000000000 + Z.of_nat i * 1000000000) 100 ltac:(lia)).
    assert (H4 := Z.div_mod (152496000000000000 + Z.of_nat j * 1000000000) 100 ltac:(lia)).
    assert (H5 := Z.mod_pos_bound (152496000000000000 + Z.of_nat j * 1000000000) 100 ltac:(lia)).
    lia.
  - left. intros i Hi. destruct (steady_ticks _ (Hs i Hi)) as [-> _].
    unfold every_second, nov_2026, width_change. cbn [fst].
    apply Z.div_lt_upper_bound; lia.
Defined.

(** ** What determines an identifier *)

Lemma stamp_inj (e1 e2 : Z) :
  (0 <= e1 < 2 ^ 56 * 100)%Z -> (0 <= e2 < 2 ^ 56 * 100)%Z ->
  stamp (shifted (ticks e1)) = stamp (shifted (ticks e2)) ->
  (e1 / 100 = e2 / 100)%Z.
Proof.
  intros H1 H2 E.
  rewrite <- (proj2 (ticks_small e1 H1)), <- (proj2 (ticks_small e2 H2)).
  rewrite <- !be_value_stamp. now rewrite E.
Qed.

Lemma app_inv_length {A} (a1 a2 b1 b2 : list A) :
  length a1 = length a2 -> a1 ++ b1 = a2 ++ b2 -> a1 = a2 /\ b1 = b2.
Proof.
  revert a2. induction a1 as [|x a1 IH]; intros [|y a2] Hl E; try discriminate.
  - now split.
  - injection Hl as Hl. injection E as -> E. destruct (IH a2 Hl E) as [-> ->].
    now split.
Qed.

Lemma Encode_inj (a b : bytes) :
  a <> [] -> b <> [] ->
  base58.EncodeAlphabet a alphabets = base58.EncodeAlphabet b alphabets -> a = b.
Proof.
  intros Ha Hb E. pose proof (Decode_Encode a Ha) as H.
  rewrite E, (Decode_Encode b Hb) in H. congruence.
Qed.

(** X15: for accepted prefixes, twelve random bytes each and clock readings
    from the epoch up to 2^56 ticks, two generated identifiers with the
    same text are the same identifier, and two equal identifiers have the
    same prefix, the same 100-nanosecond tick and the same random bytes. *)
Theorem generated_text_determines (p1 p2 : bytes) (e1 e2 : Z) (r1 r2 : bytes) :
  validatePrefix p1 true = None -> validatePrefix p2 true = None ->
  length r1 = 12 -> length r2 = 12 ->
  (0 <= e1 < 2 ^ 56 * 100)%Z -> (0 <= e2 < 2 ^ 56 * 100)%Z ->
  exists id1 id2 s1 s2,
    New p1 e1 r1 = Ok id1 /\ New p2 e2 r2 = Ok id2
    /\ String id1 = Returned s1 /\ String id2 = Returned s2
    /\ (s1 = s2 -> id1 = id2)
    /\ (id1 = id2 -> p1 = p2 /\ (e1 / 100 = e2 / 100)%Z /\ r1 = r2).
Proof.
  intros Hv1 Hv2 Hr1 Hr2 He1 He2.
  pose proof (payload_length e1 r1) as Hl1. pose proof (payload_length e2 r2) as Hl2.
  assert (Hne1 : payload e1 r1 <> []) by (intros E; rewrite E in Hl1; discriminate).
  assert (Hne2 : payload e2 r2 <> []) by (intros E; rewrite E in Hl2; discriminate).
  exists (prefix_part p1 ++ payload e1 r1), (prefix_part p2 ++ payload e2 r2).
  eexists _, _.
  split; [now apply newID_shape|]. split; [now apply newID_shape|].
  split; [now apply String_payload|]. split; [now apply String_payload|].
  split.
  - intros E.
    destruct (prefix_part_cases p1 Hv1) as [[_ Epp1] | (Hp1 & Hn1 & Epp1)];
      destruct (prefix_part_cases p2 Hv2) as [[_ Epp2] | (Hp2 & Hn2 & Epp2)];
      rewrite Epp1, Epp2 in *; cbn [app] in *.
    + now apply Encode_inj.
    + exfalso. apply (Encode_no_separator (payload e1 r1)). rewrite E.
      rewrite <- app_assoc. apply in_or_app. right. now left.
    + exfalso. apply (Encode_no_separator (payload e2 r2)). rewrite <- E.
      rewrite <- app_assoc. apply in_or_app. right. now left.
    + rewrite <- !app_assoc in E.
      assert (Hpl : length p1 = length p2) by lia.
      destruct (app_inv_length p1 p2 _ _ Hpl E) as [-> E'].
      apply app_inv_head in E'. now rewrite (Encode_inj _ _ Hne1 Hne2 E').
  - intros E.
    assert (Hlen : length (prefix_part p1) = length (prefix_part p2)).
    { apply (f_equal (@length byte)) in E. rewrite !length_app, Hl1, Hl2 in E. lia. }
    destruct (app_inv_length _ _ _ _ Hlen E) as [Epp Epay].
    rewrite (payload_full _ _ Hr1), (payload_full _ _ Hr2) in Epay.
    destruct (app_inv_length (stamp (shifted (ticks e1))) (stamp (shifted (ticks e2)))
                r1 r2 eq_refl Epay) as [Est Er].
    split; [|split; [now apply stamp_inj | exact Er]].
    destruct (prefix_part_cases p1 Hv1) as [[Q1 E1] | (Hp1 & _ & E1)];
      destruct (prefix_part_cases p2 Hv2) as [[Q2 E2] | (Hp2 & _ & E2)];
      rewrite E1, E2 in Epp.
    + congruence.
    + destruct p2; discriminate.
    + destruct p1; discriminate.
    + now apply app_inv_tail in Epp.
Qed.

Lemma generated_text_determines_witness :
  validatePrefix (lit "acc") true = None /\ validatePrefix (lit "rid") true = None
  /\ length sample_rnd = 12
  /\ (0 <= nov_2026 < 2 ^ 56 * 100)%Z /\ (0 <= dec_2026 < 2 ^ 56 * 100)%Z
  /\ exists id1 id2,
       New (lit "acc") nov_2026 sample_rnd = Ok id1
       /\ New (lit "rid") dec_2026 sample_rnd = Ok id2.
Proof.
  assert (H1 : (0 <= nov_2026 < 2 ^ 56 * 100)%Z) by (unfold nov_2026; lia).
  assert (H2 : (0 <= dec_2026 < 2 ^ 56 * 100)%Z) by (unfold dec_2026; lia).
  split; [reflexivity|]. split; [reflexivity|]. split; [reflexivity|].
  split; [exact H1|]. split; [exact H2|].
  destruct (generated_text_determines (lit "acc") (lit "rid") nov_2026 dec_2026
              sample_rnd sample_rnd eq_refl eq_refl eq_refl eq_refl H1 H2)
    as (id1 & id2 & s1 & s2 & Hn1 & Hn2 & _).
  exists id1, id2. now split.
Defined.
